(** * ConsensusCore2: the S/P1-C1.2 chemistry model and the Evaluator

    A shallow embedding of [src/models/S_P1C1v2_Model.cpp] and
    [src/EvaluatorImpl.cpp], with the properties of the scoring core
    that the specification states about them.

    Conventions of the embedding.
    - C++ integers are [Z]; a conversion to a fixed-width type is written
      out ([u8], [size_t], [int]).
    - A C++ exception is a value of [exn]; code that can throw returns an
      [except].
    - [double] is an interface ([Double]): the code of the Evaluator and
      of the model constructor is written once over it and read in
      IEEE-754 binary64 ([ieee_Double], Rocq's primitive floats), in real
      arithmetic where every operation rounds to binary64
      ([rounded_Double]), or in exact real arithmetic ([R_Double]).  Exact
      reals are used only for properties that rounding cannot change.
    - [assert] is not modelled (it is compiled out under NDEBUG and
      aborts otherwise). *)

From Stdlib Require Import ZArith List String Ascii Bool Lia.
From Stdlib Require Import Reals Lra.
From Stdlib Require Floats.
Import ListNotations.

Local Open Scope Z_scope.

(** ** Exceptions *)

(** The exception classes thrown by the two source files, with the
    argument of [what()] where the source gives one, and [std::bad_alloc]
    for a failure in the code they call. *)
Inductive exn : Type :=
| runtime_error (what : string)
| invalid_argument (what : string)
| AlphaBetaMismatch
| bad_alloc.

Inductive except (A : Type) : Type :=
| Ok (a : A)
| Throw (e : exn).

Arguments Ok {A} a.
Arguments Throw {A} e.

(** The names the specification gives to the error kinds. *)
Definition InvalidPulseWidth : exn := runtime_error "invalid PulseWidth in read!".
Definition InvalidBase : exn := invalid_argument "invalid character in read!".
Definition ReadEncodingError : exn := runtime_error "read encoding error!".
Definition InvalidTemplateBase : exn := invalid_argument "invalid character in template!".

(** ** Fixed-width integers *)

Definition u8 (x : Z) : Z := x mod 2 ^ 8.
Definition size_t (x : Z) : Z := x mod 2 ^ 64.
Definition INT_MAX : Z := 2 ^ 31 - 1.
(** Conversion to a 32-bit [int] (two's complement wrap-around). *)
Definition int (x : Z) : Z := (x + 2 ^ 31) mod 2 ^ 32 - 2 ^ 31.

(** ** Bases *)

(** Modelled from the spec: [detail::TranslationTable] is declared outside
    the two source files.  "Nucleotides encoded as 0..3 for {A,C,G,T}; any
    other character is invalid input."  The callers test [> 3]; the value
    [4] stands for every invalid entry and never reaches a result. *)
Definition TranslationTable (c : ascii) : Z :=
  if Ascii.eqb c "A" then 0
  else if Ascii.eqb c "C" then 1
  else if Ascii.eqb c "G" then 2
  else if Ascii.eqb c "T" then 3
  else 4.

Definition ACGT : list ascii := ["A"; "C"; "G"; "T"]%char.

(** ** Reads *)

(** The fields of [MappedRead] that the two source files touch.  A pulse
    width is an unsigned integer: the element type of [PulseWidth] is
    declared outside the source files; [read.PulseWidth[i] < 1U] and
    [std::min(2, read.PulseWidth[i] - 1)] type-check together only for an
    unsigned type narrower than [int]. *)
Record MappedRead : Type := {
  Seq : string;
  PulseWidth : list Z;
  TemplateStart : Z;
  TemplateEnd : Z
}.

Definition SeqAt (read : MappedRead) (i : nat) : ascii :=
  nth i (list_ascii_of_string (Seq read)) Ascii.zero.

Definition PulseWidthAt (read : MappedRead) (i : nat) : Z :=
  nth i (PulseWidth read) 0.

(** [Read::Length()] is the length of the base sequence. *)
Definition ReadLength (read : MappedRead) : nat := String.length (Seq read).

(** One pulse width per base, each a value of an unsigned type. *)
Definition wf_read (read : MappedRead) : Prop :=
  List.length (PulseWidth read) = ReadLength read /\
  Forall (fun pw => 0 <= pw) (PulseWidth read).

(** ** [S_P1C1v2_Recursor::EncodeRead] *)

(** The body of the [for] loop at index [i], with [n] iterations left. *)
Fixpoint EncodeRead_loop (read : MappedRead) (i n : nat) (result : list Z)
  : except (list Z) :=
  match n with
  | O => Ok result
  | S n' =>
      if PulseWidthAt read i <? 1 then Throw (runtime_error "invalid PulseWidth in read!")
      else
        let pw := u8 (Z.min 2 (PulseWidthAt read i - 1)) in
        let bp := TranslationTable (SeqAt read i) in
        if bp >? 3 then Throw (invalid_argument "invalid character in read!")
        else
          let em := u8 (Z.lor (Z.shiftl pw 2) bp) in
          if em >? 11 then Throw (runtime_error "read encoding error!")
          else EncodeRead_loop read (S i) n' (result ++ [em])
  end.

Definition EncodeRead (read : MappedRead) : except (list Z) :=
  EncodeRead_loop read 0 (ReadLength read) [].

(** The outcome the specification assigns to a pulse width and a base. *)
Definition outcome (pw : Z) (c : ascii) : Z :=
  Z.lor (Z.shiftl (Z.min (pw - 1) 2) 2) (TranslationTable c).

(** ** The arithmetic of [double] *)

(** What the two source files do with a [double].  [dlit z] is the literal
    or the converted [size_t] whose value is the integer [z] ([0.0], [1.0],
    [20.0], [nEmissions]); [dlog] is [std::log], [dsqrt] is [std::sqrt],
    [disfinite] is [std::isfinite]. *)
Class Double (D : Type) : Type := {
  dlit : Z -> D;
  dadd : D -> D -> D;
  dsub : D -> D -> D;
  dmul : D -> D -> D;
  ddiv : D -> D -> D;
  dopp : D -> D;
  dlog : D -> D;
  dsqrt : D -> D;
  disfinite : D -> bool
}.

(** Exact real arithmetic: no rounding, no infinities, no NaN.  Every
    value is finite here, so a test of [std::isfinite] never fails in this
    reading. *)
#[export] Instance R_Double : Double R := {
  dlit := IZR;
  dadd := Rplus;
  dsub := Rminus;
  dmul := Rmult;
  ddiv := Rdiv;
  dopp := Ropp;
  dlog := ln;
  dsqrt := sqrt;
  disfinite := fun _ => true
}.

(** IEEE-754 binary64.  The primitive floats have no logarithm: [flog]
    stands for the C library's [log].  [dlit] is exact up to [2 ^ 53]. *)
Definition ieee_Double (flog : PrimFloat.float -> PrimFloat.float)
  : Double PrimFloat.float := {|
  dlit := fun z => PrimFloat.of_uint63 (Uint63.of_Z z);
  dadd := PrimFloat.add;
  dsub := PrimFloat.sub;
  dmul := PrimFloat.mul;
  ddiv := PrimFloat.div;
  dopp := PrimFloat.opp;
  dlog := flog;
  dsqrt := PrimFloat.sqrt;
  disfinite := PrimFloat.is_finite
|}.

(** ** The S/P1-C1.2 model *)

Definition kCounterWeight {D : Type} `{Double D} : D := dlit 20.
Definition nOutcomes : nat := 12.
Definition nContexts : nat := 16.

(** The move types in the order of the rows of [emissionPmf]; the
    enumeration is declared outside the source files.  [DELETION_MOVE] is
    [MoveType::DELETION]. *)
Inductive MoveType : Type := MATCH | BRANCH | STICK | DELETION_MOVE.

Definition MoveType_code (move : MoveType) : nat :=
  match move with MATCH => 0 | BRANCH => 1 | STICK => 2 | DELETION_MOVE => 3 end%nat.

(** The moments in the order of the last index of
    [cachedEmissionExpectations_]; the enumeration is declared outside the
    source files. *)
Inductive MomentType : Type := FIRST | SECOND.

Definition MomentType_code (moment : MomentType) : nat :=
  match moment with FIRST => 0 | SECOND => 1 end%nat.

(** A signal-to-noise ratio per base, read with [operator[]]. *)
Definition SNR (D : Type) : Type := Z -> D.

Record TemplatePosition (D : Type) : Type := {
  Base : ascii;
  Idx : Z;
  Match : D;
  Branch : D;
  Stick : D;
  Deletion : D
}.

Arguments Base {D} _.
Arguments Idx {D} _.
Arguments Match {D} _.
Arguments Branch {D} _.
Arguments Stick {D} _.
Arguments Deletion {D} _.

(** The data members of [S_P1C1v2_Model]. *)
Record S_P1C1v2_Model (D : Type) : Type := {
  snr_ : SNR D;
  ctxTrans_ : list (list D);
  cachedEmissionExpectations_ : list (list (list D))
}.

Arguments snr_ {D} _.
Arguments ctxTrans_ {D} _.
Arguments cachedEmissionExpectations_ {D} _.

(** Assignment to an array element. *)
Fixpoint assign {A : Type} (k : nat) (v : A) (l : list A) : list A :=
  match l, k with
  | [], _ => []
  | _ :: t, O => v :: t
  | h :: t, S k' => h :: assign k' v t
  end.

Section Model.
Context {D : Type} `{Double D}.

Definition at_ (params : list D) (k : nat) : D := nth k params (dlit 0).

(** The context of a previous and a current base, [(prev << 2) | curr]. *)
Definition context (prev curr : Z) : Z := Z.lor (Z.shiftl prev 2) curr.

(** *** [S_P1C1v2_Model::Populate] *)

(** The loop over [i = 1 .. tpl.size() - 1]: [prevc] is [tpl[i - 1]],
    [prev] its encoding, [rest] is [tpl[i ..]]. *)
Fixpoint Populate_loop (m : S_P1C1v2_Model D) (prevc : ascii) (prev : Z)
         (rest : list ascii) (result : list (TemplatePosition D))
  : except (list (TemplatePosition D)) :=
  match rest with
  | [] =>
      Ok (result ++ [{| Base := prevc; Idx := prev; Match := dlit 1;
                        Branch := dlit 0; Stick := dlit 0; Deletion := dlit 0 |}])
  | c :: rest' =>
      let curr := TranslationTable c in
      if curr >? 3 then Throw (invalid_argument "invalid character in template!")
      else
        let row := context prev curr in
        let params := nth (Z.to_nat row) (ctxTrans_ m) [] in
        Populate_loop m c curr rest'
          (result ++ [{| Base := prevc; Idx := prev;
                         Match := at_ params 0;
                         Branch := at_ params 1;
                         Stick := at_ params 2;
                         Deletion := at_ params 3 |}])
  end.

Definition Populate (m : S_P1C1v2_Model D) (tpl : string)
  : except (list (TemplatePosition D)) :=
  match list_ascii_of_string tpl with
  | [] => Ok []
  | c0 :: rest =>
      let prev := TranslationTable c0 in
      if prev >? 3 then Throw (invalid_argument "invalid character in template!")
      else Populate_loop m c0 prev rest []
  end.

(** *** [S_P1C1v2_Model::ExpectedLLForEmission] *)

Definition ExpectedLLForEmission (m : S_P1C1v2_Model D) (move : MoveType)
           (prev curr : Z) (moment : MomentType) : D :=
  let row := context prev curr in
  at_ (nth (MoveType_code move)
           (nth (Z.to_nat row) (cachedEmissionExpectations_ m) []) [])
      (MomentType_code moment).

(** *** [S_P1C1v2_Recursor::UndoCounterWeights] *)

Definition UndoCounterWeights (nEmissions : Z) : D :=
  dmul (dopp (dlog kCounterWeight)) (dlit nEmissions).

(** The four transition probabilities of a position, in the order
    match, branch, stick, deletion. *)
Definition transitions (p : TemplatePosition D) : list D :=
  [Match p; Branch p; Stick p; Deletion p].

(** The four probabilities that [Populate] reads for a context. *)
Definition ctxTrans_row (m : S_P1C1v2_Model D) (row : Z) : list D :=
  let params := nth (Z.to_nat row) (ctxTrans_ m) [] in
  [at_ params 0; at_ params 1; at_ params 2; at_ params 3].

End Model.

(** *** The tables and the constructor, in real arithmetic *)

Local Open Scope R_scope.

(** The clamping range of the SNR of each base: A, C, G, T. *)
Definition snrRanges : list (list R) :=
  [[4.001438; 9.300400];
   [7.132999; 18.840239];
   [4.017619; 9.839173];
   [5.553696; 15.040482]]%R.

(** The emission probabilities, indexed by move (match, branch, stick),
    by context and by outcome. *)
Definition emissionPmf : list (list (list R)) :=
  [[[0.0538934269; 0.00145009847; 0.000903540653; 5.61451444e-05;
     0.0717385523; 0.00138207722; 0.000983663388; 2.98716179e-05;
     0.863881703; 0.00436234248; 0.00108967626; 0.000162001338];
    [0.00440213807; 0.0125860226; 7.60499349e-05; 2.11752707e-05;
     0.0153821856; 0.0427745313; 0.000264941701; 0.000280821504;
     0.0178753594; 0.905210325; 0.000105142401; 0.000939700363];
    [0.000540246421; 0.000218767963; 0.01836689; 0.00340121939;
     0.000730234523; 3.4737868e-05; 0.0772714471; 0.00471209957;
     0.000843144059; 0.000588970797; 0.870275654; 0.0229348618];
    [0.000111108679; 0.000203758415; 0.00804596969; 0.019115043;
     0.000549249541; 9.80612339e-05; 0.0344882713; 0.051657787;
     0.000221063495; 0.000465020805; 0.0610234598; 0.823952168];
    [0.0202789584; 0.00148903221; 0.000597163411; 0.000259954647;
     0.064020036; 0.00104431313; 0.00124614496; 0.00013358629; 0.905761027;
     0.0029572048; 0.00200379219; 0.000143327084];
    [0.0402724632; 0.0128518475; 6.42501609e-05; 2.72583767e-05;
     0.0132786761; 0.0373069841; 5.29716119e-05; 9.14398755e-05;
     0.0162147808; 0.879564809; 0.000141573402; 5.9945642e-05];
    [0.000201881601; 4.29369365e-05; 0.00728725582; 0.00149461331;
     0.000409273215; 0.000167745802; 0.0346508126; 0.00200385599;
     0.000794645188; 0.000287314863; 0.925552349; 0.0270401396];
    [0.000133065007; 7.1321816e-05; 0.00958536688; 0.0187994622;
     0.00028633053; 9.12768574e-05; 0.033314986; 0.0553368214;
     0.000384136098; 0.000731762669; 0.0598679875; 0.821318207];
    [0.0106324794; 0.00067658496; 0.000409726657; 8.44568278e-05;
     0.0352580824; 0.000480117964; 0.000394468725; 3.89470939e-05;
     0.946170299; 0.00473155911; 0.000572506557; 0.000477970619];
    [0.00197964334; 0.0054988032; 0.000105200025; 1.84904847e-05;
     0.00740934367; 0.0233884094; 0.000111958009; 5.9308563e-05;
     0.0117473508; 0.949256624; 0.000233843345; 0.000134414698];
    [0.03469053; 2.12215021e-05; 0.00596709145; 0.000976029849;
     0.000399217726; 0.000137996197; 0.0300521512; 0.00181745646;
     0.000422486611; 0.000438039184; 0.901604554; 0.0233980917];
    [0.000413418726; 3.87097781e-05; 0.0051991451; 0.00888802651;
     7.01912149e-05; 1.93669472e-05; 0.0190797047; 0.0304401645;
     0.000143986073; 0.00102353111; 0.0393876177; 0.895213831];
    [0.0206986587; 0.00139920374; 0.000577718694; 6.30728439e-05;
     0.0638528341; 0.000787266592; 0.000963775424; 7.07162141e-05;
     0.904225376; 0.00531211609; 0.00172552057; 0.000220755728];
    [0.002398519; 0.00597008512; 6.42789108e-05; 4.3328933e-05;
     0.00712968535; 0.0222720582; 0.000281381205; 2.45760734e-05;
     0.0109258848; 0.950205967; 9.46913182e-05; 0.000517544635];
    [0.000304324236; 2.30017401e-05; 0.00799304005; 0.00141347855;
     0.000168190169; 1.64084167e-05; 0.0379674798; 0.0021998025;
     0.000906751406; 0.000542188155; 0.92718794; 0.0212130746];
    [0.0280311711; 0.00051862335; 0.00593624703; 0.0083684267;
     0.00324521337; 0.000994877985; 0.0173524216; 0.0263269812; 0.0279441;
     0.0276693067; 0.0653178223; 0.788237005]];
   [[0.305613932; 0.000558996368; 0.000558996368; 0.000558996368;
     0.144283703; 0.000558996368; 0.000558996368; 0.000558996368;
     0.542276416; 0.000558996368; 0.000558996368; 0.000558996368];
    [0.000912790048; 0.0706793677; 0.000912790048; 0.000912790048;
     0.000912790048; 0.0660077837; 0.000912790048; 0.000912790048;
     0.000912790048; 0.850533788; 0.000912790048; 0.000912790048];
    [0.000370148971; 0.000370148971; 0.263701996; 0.000370148971;
     0.000370148971; 0.000370148971; 0.136580197; 0.000370148971;
     0.000370148971; 0.000370148971; 0.594535721; 0.000370148971];
    [0.000992671062; 0.000992671062; 0.000992671062; 0.0903402269;
     0.000992671062; 0.000992671062; 0.000992671062; 0.116624552;
     0.000992671062; 0.000992671062; 0.000992671062; 0.779137827];
    [0.153053079; 0.000140879113; 0.000140879113; 0.000140879113;
     0.129535583; 0.000140879113; 0.000140879113; 0.000140879113;
     0.71543903; 0.000140879113; 0.000140879113; 0.000140879113];
    [0.000273593053; 0.0390475313; 0.000273026027; 0.000273026027;
     0.0002731413; 0.0609617098; 0.000273026027; 0.000273026027;
     0.00027418863; 0.89616655; 0.000273026027; 0.000273026027];
    [0.00024935686; 0.00024935686; 0.224134214; 0.00024935686;
     0.00024935686; 0.00024935686; 0.119989707; 0.00024935686;
     0.00024935686; 0.00024935686; 0.652385082; 0.00024935686];
    [0.000703357057; 0.000703357057; 0.000703357057; 0.0774320717;
     0.000703357057; 0.000703357057; 0.000703357057; 0.0881611725;
     0.000703357057; 0.000703357057; 0.000703357057; 0.824559757];
    [0.120522857; 0.000164103067; 0.000164103067; 0.000164103067;
     0.0827988704; 0.000164103067; 0.000164103067; 0.000164103067;
     0.79438083; 0.000164103067; 0.000164103067; 0.000164103067];
    [0.000324650526; 0.0436389616; 0.000324650526; 0.000324650526;
     0.000324650526; 0.0610063298; 0.000324650526; 0.000324650526;
     0.000324650526; 0.890809601; 0.000324650526; 0.000324650526];
    [0.00044702111; 0.000447020831; 0.298059864; 0.000447020831;
     0.000447537949; 0.000447020831; 0.0757672197; 0.000447020831;
     0.000447039189; 0.000447020831; 0.619914089; 0.000447020831];
    [0.000460428661; 0.000460428661; 0.000460428661; 0.0445651204;
     0.000460428661; 0.000460428661; 0.000460428661; 0.0472083803;
     0.000460428661; 0.000460428661; 0.000460428661; 0.901780498];
    [0.129409727; 0.000180205845; 0.000180205845; 0.000180205845;
     0.110681588; 0.000180205845; 0.000180205845; 0.000180205845;
     0.757385803; 0.000180205845; 0.000180205845; 0.000180205845];
    [0.000237587758; 0.0323776588; 0.000237587758; 0.000237587758;
     0.000237587758; 0.0435983253; 0.000237587758; 0.000237587758;
     0.000237587758; 0.920697787; 0.000237587758; 0.000237587758];
    [0.000188825576; 0.000188825576; 0.166170812; 0.000188825576;
     0.000188825576; 0.000188825576; 0.0914469645; 0.000188825576;
     0.000188825576; 0.000188825576; 0.739738666; 0.000188825576];
    [0.000120613319; 0.000119901068; 0.000119901068; 0.0411298523;
     0.00011990536; 0.000119901068; 0.000119901068; 0.0701345987;
     0.000119982783; 0.000119901068; 0.000119901068; 0.887056136]];
   [[0.000572145812; 0.0249470981; 0.444128106; 0.0284293982;
     0.000572145812; 0.00410024964; 0.126982064; 0.0141199516;
     0.000572145812; 0.0811671877; 0.200116148; 0.0714326301];
    [0.157990255; 0.00032657149; 0.325814692; 0.0288899281; 0.0375283566;
     0.00032657149; 0.132842697; 0.0224909505; 0.0879452518; 0.00032657149;
     0.115500492; 0.0883848042];
    [0.358522418; 0.0235568496; 0.000864084339; 0.12651633; 0.052549674;
     0.00798327989; 0.000864084339; 0.0533075108; 0.101824542; 0.0657216859;
     0.000864084339; 0.203105036];
    [0.327657509; 0.0162688106; 0.283895663; 0.000488837542; 0.0404076842;
     0.00606060934; 0.121371198; 0.000488837542; 0.073572133; 0.0352442565;
     0.0916114349; 0.000488837542];
    [0.000292823503; 0.020723219; 0.422716082; 0.037557393; 0.000292823503;
     0.00878801277; 0.124731093; 0.00806155344; 0.000292823503; 0.225808232;
     0.102362669; 0.0469091586];
    [0.138184081; 0.000176275107; 0.353691494; 0.0366734007; 0.0669928396;
     0.000160372684; 0.152689688; 0.0113283557; 0.0933947819;
     0.000164997607; 0.112044223; 0.0337002216];
    [0.376363111; 0.0147959899; 0.000406742121; 0.0326187747; 0.124202612;
     0.00485744034; 0.000406742121; 0.0134983573; 0.154095152; 0.172573194;
     0.000406742121; 0.103741432];
    [0.262107723; 0.0139625679; 0.198087107; 0.000317282509; 0.0764115908;
     0.00637190626; 0.0728789745; 0.000317282509; 0.104982564; 0.168668474;
     0.0939908336; 0.000317282509];
    [0.000568426528; 0.023701166; 0.506335229; 0.0366977326; 0.000568426528;
     0.0181752864; 0.100905875; 0.0188386785; 0.000568426528; 0.103148426;
     0.104347954; 0.0833022395];
    [0.122032869; 0.000140837724; 0.364441855; 0.0318879599; 0.0573868815;
     0.000140837724; 0.218659155; 0.0182715104; 0.0477966054;
     0.000140837724; 0.0787912025; 0.0596052591];
    [0.396405225; 0.016157559; 0.0022109107; 0.0436250361; 0.107726515;
     0.0146690405; 0.00100899286; 0.00886596365; 0.127007802; 0.0802697981;
     0.000874635434; 0.196943448];
    [0.290414877; 0.0177202936; 0.298960183; 0.000526686986; 0.092257921;
     0.00700004966; 0.131147972; 0.000526686986; 0.0859777319; 0.0271600613;
     0.0451474144; 0.000526686986];
    [0.000428202504; 0.0191583409; 0.293741471; 0.0182063946;
     0.000428202504; 0.0180388612; 0.128372288; 0.0257390091;
     0.000428202504; 0.107512898; 0.199359888; 0.186445229];
    [0.149686594; 0.000207150428; 0.229916753; 0.0144187336; 0.0651607498;
     0.000207150428; 0.0690123099; 0.0156771722; 0.0675998749;
     0.000207150428; 0.109695096; 0.277175513];
    [0.403196746; 0.0177901114; 0.000543576149; 0.0343915039; 0.122395417;
     0.00275829252; 0.000543576149; 0.0269263943; 0.0864036291; 0.043786384;
     0.000543576149; 0.258002912];
    [0.142268585; 0.0113274953; 0.228643486; 0.000236113134; 0.0585796342;
     0.00333756943; 0.175460415; 0.000247031094; 0.0538439511; 0.0417853213;
     0.282875612; 0.00024225267]]]%R.

(** The coefficients of the cubic logits, indexed by context
    (AA, AC, ..., TT), by move (branch, stick, deletion) and by degree. *)
Definition transProbs : list (list (list R)) :=
  [[[-10.2090406; 3.32117257; -0.520117212; 0.0249921413];
    [8.9793309; -5.3961519; 0.763613361; -0.0364406433];
    [7.97224482; -3.91644241; 0.485967707; -0.0210642023]];
   [[-8.67385002; 1.79692678; -0.189152589; 0.00593875207];
    [-2.06471994; -0.248833169; 0.0239433129; -0.00081901914];
    [1.9844226; -0.834246008; 0.0238906298; 0.000299399008]];
   [[-5.57888183; 0.8609919; -0.0601847875; -0.00209638118];
    [-0.0651352822; -0.37813552; -0.116036072; 0.0118044463];
    [10.3924646; -4.87649024; 0.583074371; -0.0230668231]];
   [[-6.05918189; 1.12045586; -0.175515022; 0.0081588429];
    [-7.72954717; 1.74329164; -0.228908375; 0.00956968799];
    [0.739498015; -0.820985799; 0.034285628; 0.000308222633]];
   [[6.71916863; -4.10669176; 0.61911044; -0.0312872449];
    [-10.7393976; 3.94632964; -0.664301449; 0.0363137581];
    [0.534509761; -0.614208207; -0.0230577035; 0.00504754227]];
   [[-11.8487027; 2.18336459; -0.165744338; 0.00381936993];
    [-5.40511615; 0.582166777; -0.0352022429; 0.000649948647];
    [3.62707756; -1.60860162; 0.127123969; -0.00333194156]];
   [[-5.33620523; 1.30599458; -0.227619416; 0.0129127127];
    [-8.16537748; 2.82193426; -0.53094601; 0.0319445398];
    [13.0580439; -6.8013044; 0.926568827; -0.0424609205]];
   [[12.613656; -5.19052298; 0.561451908; -0.0206707933];
    [-9.73651127; 2.15521846; -0.225290947; 0.00767974576];
    [7.16886431; -2.96320727; 0.2726381; -0.00837654404]];
   [[-3.6938331; 0.483533725; -0.0450473465; 0.000160356592];
    [6.68949621; -4.66399411; 0.677757326; -0.0318630437];
    [1.33410944; -0.988217134; -0.00422287463; 0.00562702615]];
   [[2.66843035; -1.62797424; 0.147491681; -0.00444976878];
    [1.14199306; -0.843025302; 0.0604509646; -0.00133222978];
    [5.92824303; -2.33995279; 0.175825931; -0.00449046566]];
   [[-9.53335176; 2.51765873; -0.318510141; 0.0117320354];
    [-0.524486685; -0.436816275; -0.0926096178; 0.0112705438];
    [8.88135834; -4.79762534; 0.664134538; -0.0311007622]];
   [[3.35914891; -1.38173016; 0.0781044221; -0.000763136872];
    [10.8476498; -4.75169784; 0.525334182; -0.0193477301];
    [15.5403876; -5.8956994; 0.604296436; -0.0209965825]];
   [[5.16029404; -3.68434804; 0.621640606; -0.0350676726];
    [11.8825308; -7.04640014; 1.07909276; -0.0537996376];
    [-9.20746548; 4.71271573; -0.951489582; 0.0565839306]];
   [[2.73609906; -1.3992629; 0.120116348; -0.00349409007];
    [-4.54672948; 0.344140535; -0.0129698225; -0.000227430524];
    [0.840535522; -1.10879024; 0.0800657995; -0.00206209905]];
   [[-6.45925912; 1.63128009; -0.226062028; 0.0099607621];
    [-8.86160161; 3.12245384; -0.583442174; 0.033990528];
    [3.46514973; -1.91203442; 0.12119972; 0.00103341906]];
   [[2.70097834; -1.96301816; 0.246186023; -0.00988186677];
    [1.80568256; -1.56446979; 0.176114086; -0.00665610868];
    [1.91982573; -1.50191002; 0.153230363; -0.00550115233]]]%R.

(** [clip]: [std::max(range[0], std::min(val, range[1]))]. *)
Definition clip (val : R) (range : list R) : R :=
  Rmax (nth 0 range 0) (Rmin val (nth 1 range 0)).

Definition CalculateExpectedLLForEmission (move row moment : nat) : R :=
  fold_left
    (fun expectedLL i =>
       let curProb := nth i (nth row (nth move emissionPmf []) []) 0 in
       let lgCurProb := ln curProb in
       if Nat.eqb moment (MomentType_code FIRST)
       then expectedLL + curProb * lgCurProb
       else if Nat.eqb moment (MomentType_code SECOND)
            then expectedLL + curProb * (lgCurProb * lgCurProb)
            else expectedLL)
    (seq 0 nOutcomes) 0.

(** The cubic [xb] of the constructor's inner loop, before [std::exp], for
    context [ctx] and move [j] (branch, stick, deletion). *)
Definition logit (ctx : Z) (j : nat) (snr1 snr2 snr3 : R) : R :=
  let c := nth j (nth (Z.to_nat ctx) transProbs []) [] in
  nth 0 c 0 + snr1 * nth 1 c 0 + snr2 * nth 2 c 0 + snr3 * nth 3 c 0.

(** One iteration of the inner loop: it writes [ctxTrans_[ctx][j + 1]] and
    adds to [sum]. *)
Definition ctxTrans_step (ctx : Z) (snr1 snr2 snr3 : R)
           (st : list R * R) (j : nat) : list R * R :=
  let xb := logit ctx j snr1 snr2 snr3 in
  let xb := exp xb in
  (assign (j + 1) xb (fst st), snd st + xb).

(** The body of the constructor's loop for context [ctx]: the row
    [ctxTrans_[ctx]], without the rounding of binary64 (for the rounding
    see [any_ctxTrans_ctor]). *)
Definition ctxTrans_ctor (snr : SNR R) (ctx : Z) : list R :=
  let bp := Z.land ctx 3 in
  let snr1 := clip (snr bp) (nth (Z.to_nat bp) snrRanges []) in
  let snr2 := snr1 * snr1 in
  let snr3 := snr2 * snr1 in
  let st := fold_left (ctxTrans_step ctx snr1 snr2 snr3) [0; 1; 2]%nat
                      (assign 0 1 [0; 0; 0; 0], 1) in
  map (fun x => x / snd st) (fst st).

Definition cachedEmissionExpectations_ctor (ctx : nat) : list (list R) :=
  map (fun move =>
         map (fun moment => CalculateExpectedLLForEmission move ctx moment)
             (seq 0 2))
      (seq 0 3).

(** [S_P1C1v2_Model::S_P1C1v2_Model(const SNR&)]. *)
Definition S_P1C1v2_Model_new (snr : SNR R) : S_P1C1v2_Model R := {|
  snr_ := snr;
  ctxTrans_ := map (fun ctx => ctxTrans_ctor snr (Z.of_nat ctx)) (seq 0 nContexts);
  cachedEmissionExpectations_ := map cachedEmissionExpectations_ctor (seq 0 nContexts)
|}.

(** [S_P1C1v2_Recursor::EmissionPr]. *)
Definition EmissionPr (move : MoveType) (emission prev curr : Z) : R :=
  let row := context prev curr in
  nth (Z.to_nat emission)
      (nth (Z.to_nat row) (nth (MoveType_code move) emissionPmf []) []) 0
  * kCounterWeight.

Local Close Scope R_scope.

(** ** Mutations *)

Inductive MutationType : Type := DELETION | INSERTION | SUBSTITUTION.

(** Modelled from the spec: the class [Mutation] is declared outside the
    source files.  "Mutation record. {type, start, end, base?};
    lengthDiff = +1 | 0 | -1 depending on type; start <= end <= L."
    [Start] and [End] are [size_t] values. *)
Record Mutation : Type := {
  Type_ : MutationType;
  Start : Z;
  End_ : Z
}.

Definition LengthDiff (mut : Mutation) : Z :=
  match Type_ mut with
  | INSERTION => 1
  | SUBSTITUTION => 0
  | DELETION => -1
  end.

Definition is_DELETION (mut : Mutation) : bool :=
  match Type_ mut with DELETION => true | _ => false end.

Definition EXTEND_BUFFER_COLUMNS : Z := 8.

Section Evaluator.
Context {D : Type} `{Double D}.

(** *** Scaled matrices *)

(** Modelled from the spec: [ScaledMatrix] is declared outside the source
    files.  "A rectangular table M of size (rows x cols) of non-negative
    floats, together with a logScale[j] vector (one per column)";
    [Reset] "zeros contents, clears scales";
    "GetLogProdScales(a,b) = sum of logScale[j] for j in [a,b) and
    GetLogProdScales() = GetLogProdScales(0, cols)". *)
Record ScaledMatrix : Type := {
  Rows : Z;
  Columns : Z;
  Get : Z -> Z -> D;
  GetLogScale : Z -> D
}.

Definition NewScaledMatrix (rows cols : Z) : ScaledMatrix := {|
  Rows := rows;
  Columns := cols;
  Get := fun _ _ => dlit 0;
  GetLogScale := fun _ => dlit 0
|}.

Definition Null : ScaledMatrix := NewScaledMatrix 0 0.

Definition columns_from (beginColumn endColumn : Z) : list Z :=
  map (fun k => beginColumn + Z.of_nat k)
      (seq 0 (Z.to_nat (endColumn - beginColumn))).

Definition GetLogProdScales (m : ScaledMatrix) (beginColumn endColumn : Z) : D :=
  fold_left (fun acc j => dadd acc (GetLogScale m j))
            (columns_from beginColumn endColumn) (dlit 0).

Definition GetLogProdScales_all (m : ScaledMatrix) : D :=
  GetLogProdScales m 0 (Columns m).

(** *** Templates *)

(** Modelled from the spec: the template classes are declared outside the
    source files.  "An ordered sequence of TemplatePositions of length L,
    plus [...] a virtual mutation that conceptually edits positions
    [start, end) and changes length by lengthDiff"; "at most one virtual
    mutation is in effect at a time, and Reset restores the pre-mutation
    view"; [Mutate] "apply virtual overlay; the visible sequence changes
    length by mut.lengthDiff"; [Reset] "undo the overlay". *)
Record Template : Type := {
  positions : list (TemplatePosition D);
  pending : option Mutation
}.

Definition Mutate (mut : Mutation) (tpl : Template) : Template :=
  {| positions := positions tpl; pending := Some mut |}.

Definition Reset (tpl : Template) : Template :=
  {| positions := positions tpl; pending := None |}.

Definition Length (tpl : Template) : Z :=
  Z.of_nat (List.length (positions tpl)) +
  match pending tpl with
  | Some mut => LengthDiff mut
  | None => 0
  end.

(** Modelled from the spec: the template's [UndoCounterWeights] is declared
    outside the source files; "undoCounterWeights [is] provided by the
    Model", here the S/P1-C1.2 one. *)
Definition Template_UndoCounterWeights (tpl : Template) (nEmissions : Z) : D :=
  UndoCounterWeights nEmissions.

(** *** The recursor *)

(** Modelled from the spec: the class template [Recursor] is declared
    outside the source files.  "The Recursor holds: the Template, the
    encoded read (a vector of 0..11 outcomes), and a scoreDiff banding
    threshold." *)
Record Recursor : Type := {
  tpl_ : Template;
  read_ : MappedRead;
  emissions_ : list Z;
  scoreDiff_ : D
}.

Definition Recursor_new (tpl : Template) (mr : MappedRead) (scoreDiff : D)
  : except Recursor :=
  match EncodeRead mr with
  | Throw x => Throw x
  | Ok emissions =>
      Ok {| tpl_ := tpl; read_ := mr; emissions_ := emissions;
            scoreDiff_ := scoreDiff |}
  end.

(** The operations of the recursor and of the template whose bodies are
    outside the source files.  Each takes the matrices it reads and returns
    the matrix it writes (the extend buffer, or the matrices being filled),
    and may throw. *)
Record Primitives : Type := {
  FillAlphaBeta : Recursor -> ScaledMatrix -> ScaledMatrix ->
                  except (ScaledMatrix * ScaledMatrix);
  FillAlpha : Recursor -> ScaledMatrix -> ScaledMatrix -> except ScaledMatrix;
  ExtendAlpha : Recursor -> ScaledMatrix -> Z -> ScaledMatrix -> Z ->
                except ScaledMatrix;
  ExtendBeta : Recursor -> ScaledMatrix -> Z -> ScaledMatrix -> Z ->
               except ScaledMatrix;
  LinkAlphaBeta : Recursor -> ScaledMatrix -> Z -> ScaledMatrix -> Z -> Z ->
                  except D;
  Template_NormalParameters : Template -> Z -> Z -> D * D
}.

Variable P : Primitives.

(** *** The evaluator *)

Record EvaluatorImpl : Type := {
  recursor_ : Recursor;
  alpha_ : ScaledMatrix;
  beta_ : ScaledMatrix;
  extendBuffer_ : ScaledMatrix
}.

Definition read_Length (e : EvaluatorImpl) : Z :=
  Z.of_nat (ReadLength (read_ (recursor_ e))).

(** [EvaluatorImpl::LL() const]. *)
Definition LL (e : EvaluatorImpl) : D :=
  dadd (dadd (dlog (Get (beta_ e) 0 0)) (GetLogProdScales_all (beta_ e)))
       (Template_UndoCounterWeights (tpl_ (recursor_ e)) (read_Length e)).

(** [EvaluatorImpl::EvaluatorImpl]. *)
Definition EvaluatorImpl_new (tpl : Template) (mr : MappedRead) (scoreDiff : D)
  : except EvaluatorImpl :=
  match Recursor_new tpl mr scoreDiff with
  | Throw x => Throw x
  | Ok recursor =>
      let rows := Z.of_nat (ReadLength mr) + 1 in
      let alpha := NewScaledMatrix rows (Length (tpl_ recursor) + 1) in
      let beta := NewScaledMatrix rows (Length (tpl_ recursor) + 1) in
      let extendBuffer := NewScaledMatrix rows EXTEND_BUFFER_COLUMNS in
      match FillAlphaBeta P recursor alpha beta with
      | Throw x => Throw x
      | Ok (alpha', beta') =>
          let e := {| recursor_ := recursor; alpha_ := alpha'; beta_ := beta';
                      extendBuffer_ := extendBuffer |} in
          if negb (disfinite (LL e)) then Throw AlphaBetaMismatch else Ok e
      end
  end.

(** [EvaluatorImpl::NormalParameters] and [EvaluatorImpl::ZScore]. *)
Definition NormalParameters (e : EvaluatorImpl) : D * D :=
  Template_NormalParameters P (tpl_ (recursor_ e))
    (TemplateStart (read_ (recursor_ e))) (TemplateEnd (read_ (recursor_ e))).

Definition ZScore (e : EvaluatorImpl) : D :=
  let '(mean, var) := NormalParameters e in
  ddiv (dsub (LL e) mean) (dsqrt var).

(** *** Member functions that write the evaluator *)

(** A non-const member function: it runs on the evaluator, returns or
    throws, and leaves the evaluator as it was at that moment. *)
Definition M (A : Type) : Type := EvaluatorImpl -> except A * EvaluatorImpl.

Definition ret {A : Type} (a : A) : M A := fun e => (Ok a, e).

Definition bind {A B : Type} (c : M A) (k : A -> M B) : M B :=
  fun e =>
    match c e with
    | (Ok a, e') => k a e'
    | (Throw x, e') => (Throw x, e')
    end.

Definition get : M EvaluatorImpl := fun e => (Ok e, e).

Definition lift {A : Type} (r : except A) : M A := fun e => (r, e).

(** [recursor_.tpl_->f()] for a member function [f] that edits the
    template in place. *)
Definition on_tpl (f : Template -> Template) (r : Recursor) : Recursor :=
  {| tpl_ := f (tpl_ r); read_ := read_ r; emissions_ := emissions_ r;
     scoreDiff_ := scoreDiff_ r |}.

Definition with_tpl (f : Template -> Template) : M unit :=
  fun e =>
    (Ok tt,
     {| recursor_ := on_tpl f (recursor_ e);
        alpha_ := alpha_ e; beta_ := beta_ e;
        extendBuffer_ := extendBuffer_ e |}).

Definition set_extendBuffer (ext : ScaledMatrix) : M unit :=
  fun e =>
    (Ok tt,
     {| recursor_ := recursor_ e; alpha_ := alpha_ e; beta_ := beta_ e;
        extendBuffer_ := ext |}).

End Evaluator.

Arguments ScaledMatrix D : clear implicits.
Arguments Template D : clear implicits.
Arguments Recursor D : clear implicits.
Arguments Primitives D : clear implicits.
Arguments EvaluatorImpl D : clear implicits.
Arguments M D A : clear implicits.

Declare Scope eval_scope.
Delimit Scope eval_scope with eval.

Notation "x <- c1 ;; c2" := (bind c1 (fun x => c2))
  (at level 61, c1 at next level, right associativity) : eval_scope.
Notation "c1 ;; c2" := (bind c1 (fun _ => c2))
  (at level 61, right associativity) : eval_scope.

Section EvaluatorLL.
Context {D : Type} `{Double D}.
Variable P : Primitives D.

Local Open Scope eval_scope.

(** [recursor_.ExtendAlpha(alpha_, beginColumn, extendBuffer_, numExtColumns)]. *)
Definition call_ExtendAlpha (beginColumn numExtColumns : Z) : M D unit :=
  e <- get ;;
  ext <- lift (ExtendAlpha P (recursor_ e) (alpha_ e) beginColumn
                           (extendBuffer_ e) numExtColumns) ;;
  set_extendBuffer ext.

(** [recursor_.ExtendBeta(beta_, lastColumn, extendBuffer_, lengthDiff)]. *)
Definition call_ExtendBeta (lastColumn lengthDiff : Z) : M D unit :=
  e <- get ;;
  ext <- lift (ExtendBeta P (recursor_ e) (beta_ e) lastColumn
                          (extendBuffer_ e) lengthDiff) ;;
  set_extendBuffer ext.

(** [recursor_.LinkAlphaBeta(extendBuffer_, alphaColumn, beta_, betaColumn,
    absoluteColumn)]. *)
Definition call_LinkAlphaBeta (alphaColumn betaColumn absoluteColumn : Z) : M D D :=
  e <- get ;;
  lift (LinkAlphaBeta P (recursor_ e) (extendBuffer_ e) alphaColumn (beta_ e)
                      betaColumn absoluteColumn).

(** [EvaluatorImpl::LL(const Mutation&)]. *)
Definition LL_mut (mut : Mutation) : M D D :=
  with_tpl (Mutate mut) ;;
  e <- get ;;
  let betaLinkCol := size_t (1 + End_ mut) in
  let absoluteLinkColumn := size_t (1 + End_ mut + LengthDiff mut) in
  let atBegin := Start mut <? 3 in
  let atEnd := size_t (End_ mut + 3) >? Columns (beta_ e) in
  score <-
    (if negb atBegin && negb atEnd then
       let extendLength := 2 in
       let extendStartCol :=
         if is_DELETION mut then int (size_t (Start mut - 1))
         else int (Start mut) in
       call_ExtendAlpha (size_t extendStartCol) (size_t extendLength) ;;
       link <- call_LinkAlphaBeta (size_t extendLength) betaLinkCol
                                  absoluteLinkColumn ;;
       e1 <- get ;;
       ret (dadd link (GetLogProdScales (alpha_ e1) 0 (size_t extendStartCol)))
     else if negb atBegin && atEnd then
       let extendStartCol := size_t (Start mut - 1) in
       let extendLength :=
         size_t (Length (tpl_ (recursor_ e)) - extendStartCol + 1) in
       call_ExtendAlpha extendStartCol extendLength ;;
       e1 <- get ;;
       ret (dadd (dadd (dlog (Get (extendBuffer_ e1) (read_Length e1)
                                  (size_t (extendLength - 1))))
                       (GetLogProdScales (alpha_ e1) 0 extendStartCol))
                 (GetLogProdScales (extendBuffer_ e1) 0 extendLength))
     else if atBegin && negb atEnd then
       let extendLastCol := End_ mut in
       let extendLength := size_t (1 + End_ mut + LengthDiff mut) in
       call_ExtendBeta extendLastCol (LengthDiff mut) ;;
       e1 <- get ;;
       ret (dadd (dadd (dlog (Get (extendBuffer_ e1) 0 0))
                       (GetLogProdScales (beta_ e1) (size_t (extendLastCol + 1))
                                         (Columns (beta_ e1))))
                 (GetLogProdScales (extendBuffer_ e1) 0 extendLength))
     else
       let alphaP := NewScaledMatrix (read_Length e + 1)
                                     (Length (tpl_ (recursor_ e)) + 1) in
       alphaP' <- lift (FillAlpha P (recursor_ e) Null alphaP) ;;
       ret (dadd (dlog (Get alphaP' (read_Length e) (Length (tpl_ (recursor_ e)))))
                 (GetLogProdScales_all alphaP'))) ;;
  with_tpl Reset ;;
  e2 <- get ;;
  ret (dadd score (Template_UndoCounterWeights (tpl_ (recursor_ e2)) (read_Length e2))).

End EvaluatorLL.

(** ** Predicates used in the statements *)

(** Position [i] of a read passes the two checks of [EncodeRead]: its pulse
    width is not zero and its character is a base. *)
Definition passes (read : MappedRead) (i : nat) : Prop :=
  PulseWidthAt read i <> 0 /\ In (SeqAt read i) ACGT.

(** What [EncodeRead] returns when every position passes. *)
Definition encoded (read : MappedRead) : list Z :=
  map (fun i => outcome (PulseWidthAt read i) (SeqAt read i))
      (seq 0 (ReadLength read)).

(** The error behaviour of [EncodeRead] read position-blind: any zero pulse
    width gives [InvalidPulseWidth], any character outside {A,C,G,T} gives
    [InvalidBase], and a read with neither is encoded. *)
Definition EncodeRead_position_blind (read : MappedRead) : Prop :=
  ((exists i, (i < ReadLength read)%nat /\ PulseWidthAt read i = 0) ->
   EncodeRead read = Throw InvalidPulseWidth) /\
  ((exists i, (i < ReadLength read)%nat /\ ~ In (SeqAt read i) ACGT) ->
   EncodeRead read = Throw InvalidBase) /\
  ((forall i, (i < ReadLength read)%nat -> passes read i) ->
   EncodeRead read = Ok (encoded read)).

(** A read whose first character is not a base and whose second pulse
    width is zero. *)
Definition read_NA : MappedRead :=
  {| Seq := "NA"; PulseWidth := [1; 0]; TemplateStart := 0; TemplateEnd := 2 |}.

(** A read with the pulse widths of the specification's scenario. *)
Definition read_AAAAAA : MappedRead :=
  {| Seq := "AAAAAA"; PulseWidth := [1; 2; 3; 1; 1; 1];
     TemplateStart := 0; TemplateEnd := 6 |}.

Section PopulateSpec.
Context {D : Type} `{Double D}.

(** The position that the specification places at index [i] of the
    populated template: the transitions of context (base[i], base[i+1])
    before the last index, and (1, 0, 0, 0) at the last. *)
Definition position_at (m : S_P1C1v2_Model D) (tpl : list ascii) (i : nat)
  : TemplatePosition D :=
  let c := nth i tpl Ascii.zero in
  if (S i <? List.length tpl)%nat then
    let row := context (TranslationTable c)
                       (TranslationTable (nth (S i) tpl Ascii.zero)) in
    let params := nth (Z.to_nat row) (ctxTrans_ m) [] in
    {| Base := c; Idx := TranslationTable c;
       Match := at_ params 0; Branch := at_ params 1;
       Stick := at_ params 2; Deletion := at_ params 3 |}
  else
    {| Base := c; Idx := TranslationTable c;
       Match := dlit 1; Branch := dlit 0; Stick := dlit 0; Deletion := dlit 0 |}.

Definition populated (m : S_P1C1v2_Model D) (tpl : list ascii)
  : list (TemplatePosition D) :=
  map (position_at m tpl) (seq 0 (List.length tpl)).

End PopulateSpec.

(** ** Instances used in the examples *)

(** The model of the specification's scenarios: SNR (8, 8, 8, 8). *)
Definition model_snr8 : S_P1C1v2_Model R := S_P1C1v2_Model_new (fun _ => 8%R).

Definition read_ACGTACGT : MappedRead :=
  {| Seq := "ACGTACGT"; PulseWidth := [1; 1; 1; 1; 1; 1; 1; 1];
     TemplateStart := 0; TemplateEnd := 8 |}.

Definition tpl_ACGTACGT : Template R :=
  {| positions := populated model_snr8 (list_ascii_of_string "ACGTACGT");
     pending := None |}.

(** Primitives that write nothing and score 0. *)
Definition idle_primitives (D : Type) `{Double D} : Primitives D := {|
  FillAlphaBeta := fun _ alpha beta => Ok (alpha, beta);
  FillAlpha := fun _ _ alpha => Ok alpha;
  ExtendAlpha := fun _ _ _ ext _ => Ok ext;
  ExtendBeta := fun _ _ _ ext _ => Ok ext;
  LinkAlphaBeta := fun _ _ _ _ _ _ => Ok (dlit 0);
  Template_NormalParameters := fun _ _ _ => (dlit 0, dlit 0)
|}.

(** Primitives whose [ExtendAlpha] fails. *)
Definition failing_primitives : Primitives R := {|
  FillAlphaBeta := fun _ alpha beta => Ok (alpha, beta);
  FillAlpha := fun _ _ alpha => Ok alpha;
  ExtendAlpha := fun _ _ _ _ _ => Throw bad_alloc;
  ExtendBeta := fun _ _ _ ext _ => Ok ext;
  LinkAlphaBeta := fun _ _ _ _ _ _ => Ok 0%R;
  Template_NormalParameters := fun _ _ _ => (0%R, 0%R)
|}.

(** An evaluator for the template and read "ACGTACGT". *)
Definition evaluator_ACGTACGT : EvaluatorImpl R := {|
  recursor_ := {| tpl_ := tpl_ACGTACGT; read_ := read_ACGTACGT;
                  emissions_ := [0; 1; 2; 3; 0; 1; 2; 3]; scoreDiff_ := 12.5%R |};
  alpha_ := NewScaledMatrix 9 9;
  beta_ := NewScaledMatrix 9 9;
  extendBuffer_ := NewScaledMatrix 9 EXTEND_BUFFER_COLUMNS
|}.

(** The substitution of the specification's scenario. *)
Definition mut_SUBSTITUTION_4 : Mutation :=
  {| Type_ := SUBSTITUTION; Start := 4; End_ := 5 |}.

Section FloatExamples.
Import PrimFloat.

(** The identity in the place of the C library's logarithm. *)
Definition ieee_idlog : Double float := ieee_Double (fun x => x).

(** An evaluator over binary64. *)
Definition evaluator_float : EvaluatorImpl float := {|
  recursor_ := {| tpl_ := {| positions := []; pending := None |};
                  read_ := read_ACGTACGT;
                  emissions_ := [0; 1; 2; 3; 0; 1; 2; 3];
                  scoreDiff_ := 12.5%float |};
  alpha_ := @NewScaledMatrix _ ieee_idlog 9 9;
  beta_ := @NewScaledMatrix _ ieee_idlog 9 9;
  extendBuffer_ := @NewScaledMatrix _ ieee_idlog 9 8
|}.

End FloatExamples.

(** ** The claims that do not hold as they are stated *)

(** [LL(mut)] leaves the template as it was before the call, however the
    call ends. *)
Definition LL_mut_restores_template {D : Type} `{Double D}
           (P : Primitives D) (e : EvaluatorImpl D) (mut : Mutation) : Prop :=
  tpl_ (recursor_ (snd (LL_mut P mut e))) = tpl_ (recursor_ e).

(** ** Committing mutations: [Recalculate], [ApplyMutation], [ApplyMutations] *)

Section Commit.
Context {D : Type} `{Double D}.

(** The committing operations of the template, whose bodies are outside the
    source files: each returns the committed template or throws. *)
Record TemplateCommit : Type := {
  Template_ApplyMutation : Mutation -> Template D -> except (Template D);
  Template_ApplyMutations : list Mutation -> Template D -> except (Template D)
}.

Variable P : Primitives D.
Variable T : TemplateCommit.

(** Modelled from the spec: [ScaledMatrix::Reset(rows, cols)] "zeros
    contents, clears scales and ranges". *)
Definition ScaledMatrix_Reset (rows cols : Z) (m : ScaledMatrix D) : ScaledMatrix D :=
  NewScaledMatrix rows cols.

Definition set_matrices (alpha beta extendBuffer : ScaledMatrix D) : M D unit :=
  fun e =>
    (Ok tt,
     {| recursor_ := recursor_ e; alpha_ := alpha; beta_ := beta;
        extendBuffer_ := extendBuffer |}).

(** [EvaluatorImpl::Recalculate].  When [FillAlphaBeta] throws, the
    evaluator is left with the matrices as [Reset] made them; what
    [FillAlphaBeta] had written by then is not modelled. *)
Definition Recalculate : M D unit :=
  (e <- get ;;
   let I := read_Length e + 1 in
   let J := Length (tpl_ (recursor_ e)) + 1 in
   set_matrices (ScaledMatrix_Reset I J (alpha_ e))
                (ScaledMatrix_Reset I J (beta_ e))
                (ScaledMatrix_Reset I EXTEND_BUFFER_COLUMNS (extendBuffer_ e)) ;;
   e1 <- get ;;
   filled <- lift (FillAlphaBeta P (recursor_ e1) (alpha_ e1) (beta_ e1)) ;;
   set_matrices (fst filled) (snd filled) (extendBuffer_ e1))%eval.

(** [EvaluatorImpl::ApplyMutation]. *)
Definition ApplyMutation (mut : Mutation) : M D unit :=
  (e <- get ;;
   tpl <- lift (Template_ApplyMutation T mut (tpl_ (recursor_ e))) ;;
   with_tpl (fun _ => tpl) ;;
   Recalculate)%eval.

(** [EvaluatorImpl::ApplyMutations]. *)
Definition ApplyMutations (muts : list Mutation) : M D unit :=
  (e <- get ;;
   tpl <- lift (Template_ApplyMutations T muts (tpl_ (recursor_ e))) ;;
   with_tpl (fun _ => tpl) ;;
   Recalculate)%eval.

End Commit.

Arguments TemplateCommit D : clear implicits.

(** ** Further predicates and instances *)

(** The read whose pulse widths are those of [read] capped at 3. *)
Definition cap_PulseWidth (read : MappedRead) : MappedRead :=
  {| Seq := Seq read; PulseWidth := map (Z.min 3) (PulseWidth read);
     TemplateStart := TemplateStart read; TemplateEnd := TemplateEnd read |}.

(** The read made of [r1] followed by [r2]. *)
Definition read_app (r1 r2 : MappedRead) : MappedRead :=
  {| Seq := Seq r1 ++ Seq r2; PulseWidth := PulseWidth r1 ++ PulseWidth r2;
     TemplateStart := TemplateStart r1; TemplateEnd := TemplateEnd r2 |}.

(** The base that an outcome of [EncodeRead] stands for, and its pulse-width
    class (0, 1 or 2). *)
Definition outcome_base (em : Z) : ascii := nth (Z.to_nat (Z.land em 3)) ACGT Ascii.zero.
Definition outcome_pw (em : Z) : Z := Z.shiftr em 2.

(** The SNR with every channel clamped to its range. *)
Definition clamped_SNR (snr : SNR R) : SNR R :=
  fun bp => clip (snr bp) (nth (Z.to_nat bp) snrRanges []).

(** The sum of a row of a table. *)
Definition row_sum (r : list R) : R := fold_right Rplus 0%R r.

(** Template operations that commit nothing. *)
Definition idle_commit (D : Type) : TemplateCommit D := {|
  Template_ApplyMutation := fun _ tpl => Ok tpl;
  Template_ApplyMutations := fun _ tpl => Ok tpl
|}.

(** A deletion at the last base of "ACGTACGT", a substitution at its first
    base, and an insertion. *)
Definition mut_DELETION_7 : Mutation := {| Type_ := DELETION; Start := 7; End_ := 8 |}.
Definition mut_SUBSTITUTION_0 : Mutation :=
  {| Type_ := SUBSTITUTION; Start := 0; End_ := 1 |}.
Definition mut_INSERTION_1 : Mutation := {| Type_ := INSERTION; Start := 1; End_ := 1 |}.

(** An evaluator for the template and read "AC", too short for the
    extend-and-link strategies. *)
Definition read_AC : MappedRead :=
  {| Seq := "AC"; PulseWidth := [1; 1]; TemplateStart := 0; TemplateEnd := 2 |}.

Definition evaluator_AC : EvaluatorImpl R := {|
  recursor_ := {| tpl_ := {| positions := populated model_snr8 (list_ascii_of_string "AC");
                             pending := None |};
                  read_ := read_AC; emissions_ := [0; 1]; scoreDiff_ := 12.5%R |};
  alpha_ := NewScaledMatrix 3 3;
  beta_ := NewScaledMatrix 3 3;
  extendBuffer_ := NewScaledMatrix 3 EXTEND_BUFFER_COLUMNS
|}.


(** ** Instances that tell what the code passes and stores *)

(** A deletion in the interior of "ACGTACGT". *)
Definition mut_DELETION_4 : Mutation := {| Type_ := DELETION; Start := 4; End_ := 5 |}.

(** Primitives that record their arguments in what they return:
    [ExtendAlpha] returns a buffer with as many rows as the template it is
    given has positions and [100 * beginColumn + numExtColumns] columns;
    [LinkAlphaBeta] returns
    [10000 * alphaColumn + 100 * betaColumn + absoluteColumn]. *)
Definition recording_primitives : Primitives R := {|
  FillAlphaBeta := fun _ alpha beta => Ok (alpha, beta);
  FillAlpha := fun _ _ alpha => Ok alpha;
  ExtendAlpha := fun r _ beginColumn _ numExtColumns =>
    Ok (NewScaledMatrix (Length (tpl_ r)) (100 * beginColumn + numExtColumns));
  ExtendBeta := fun _ _ _ ext _ => Ok ext;
  LinkAlphaBeta := fun _ _ alphaColumn _ betaColumn absoluteColumn =>
    Ok (IZR (10000 * alphaColumn + 100 * betaColumn + absoluteColumn));
  Template_NormalParameters := fun _ _ _ => (0%R, 0%R)
|}.

(** A model whose transition table holds the number [10 * ctx + k] at
    entry [k] of context [ctx], so that a stored probability tells where it
    was read. *)
Definition model_marked : S_P1C1v2_Model R := {|
  snr_ := fun _ => 8%R;
  ctxTrans_ := map (fun ctx => map (fun k => IZR (Z.of_nat (10 * ctx + k))) (seq 0 4))
                   (seq 0 nContexts);
  cachedEmissionExpectations_ := []
|}.

Section FloatInstances.
Import PrimFloat.

(** The C library's logarithm at the three arguments the examples give
    it: log 0 = -infinity, log 1 = 0, log 20 = 2.9957322735539909. *)
#[warnings="-inexact-float"]
Definition log_at_0_1_20 (x : float) : float :=
  if (x =? 0)%float then neg_infinity
  else if (x =? 1)%float then 0%float
  else if (x =? 20)%float then 2.9957322735539909%float
  else nan.

Definition ieee_log : Double float := ieee_Double log_at_0_1_20.

(** A template of eight positions over binary64. *)
Definition tpl_float : Template float := {|
  positions :=
    map (fun c => {| Base := c; Idx := TranslationTable c; Match := 1%float;
                     Branch := 0%float; Stick := 0%float; Deletion := 0%float |})
        (list_ascii_of_string "ACGTACGT");
  pending := None
|}.

Definition scoreDiff_float : float := 12.5%float.

(** Primitives over binary64 that write nothing: the filled matrices are
    the zero matrices they were given. *)
Definition idle_float : Primitives float := @idle_primitives _ ieee_log.

(** Primitives whose [FillAlphaBeta] itself throws [AlphaBetaMismatch]. *)
Definition mismatching_primitives : Primitives float := {|
  FillAlphaBeta := fun _ _ _ => Throw AlphaBetaMismatch;
  FillAlpha := fun _ _ alpha => Ok alpha;
  ExtendAlpha := fun _ _ _ ext _ => Ok ext;
  ExtendBeta := fun _ _ _ ext _ => Ok ext;
  LinkAlphaBeta := fun _ _ _ _ _ _ => Ok 0%float;
  Template_NormalParameters := fun _ _ _ => (0%float, 0%float)
|}.

(** The matrix of the size of [m] with 1 in every cell. *)
Definition all_ones (m : ScaledMatrix float) : ScaledMatrix float := {|
  Rows := Rows m;
  Columns := Columns m;
  Get := fun _ _ => 1%float;
  GetLogScale := GetLogScale m
|}.

(** Primitives whose [FillAlphaBeta] writes 1 into every cell. *)
Definition filling_primitives : Primitives float := {|
  FillAlphaBeta := fun _ alpha beta => Ok (all_ones alpha, all_ones beta);
  FillAlpha := fun _ _ alpha => Ok alpha;
  ExtendAlpha := fun _ _ _ ext _ => Ok ext;
  ExtendBeta := fun _ _ _ ext _ => Ok ext;
  LinkAlphaBeta := fun _ _ _ _ _ _ => Ok 0%float;
  Template_NormalParameters := fun _ _ _ => (0%float, 0%float)
|}.

(** An evaluator over binary64 whose matrices are empty, with the recursor
    that the constructor builds for [tpl_float] and the read "ACGTACGT". *)
Definition evaluator_stale : EvaluatorImpl float := {|
  recursor_ := {| tpl_ := tpl_float; read_ := read_ACGTACGT;
                  emissions_ := [0; 1; 2; 3; 0; 1; 2; 3];
                  scoreDiff_ := scoreDiff_float |};
  alpha_ := @Null _ ieee_log;
  beta_ := @Null _ ieee_log;
  extendBuffer_ := @Null _ ieee_log
|}.

End FloatInstances.

(** The constructor throws [AlphaBetaMismatch] if and only if the [LL()]
    of the evaluator that [FillAlphaBeta] filled is not finite. *)
Definition mismatch_iff_LL_not_finite {D : Type} `{Double D} (P : Primitives D)
           (tpl : Template D) (mr : MappedRead) (scoreDiff : D) : Prop :=
  let rows := Z.of_nat (ReadLength mr) + 1 in
  let cols := Length tpl + 1 in
  EvaluatorImpl_new P tpl mr scoreDiff = Throw AlphaBetaMismatch <->
  exists recursor alpha beta,
    Recursor_new tpl mr scoreDiff = Ok recursor /\
    FillAlphaBeta P recursor (NewScaledMatrix rows cols) (NewScaledMatrix rows cols)
    = Ok (alpha, beta) /\
    disfinite (LL {| recursor_ := recursor; alpha_ := alpha; beta_ := beta;
                     extendBuffer_ := NewScaledMatrix rows EXTEND_BUFFER_COLUMNS |})
    = false.

(** ** The model constructor over any arithmetic of [double] *)

Section Constructor.
Context {D : Type} `{Double D}.

(** [std::exp], and [operator<] on [double] as [std::min] and [std::max]
    use it. *)
Variable dexp : D -> D.
Variable dltb : D -> D -> bool.

(** The tables [snrRanges] and [transProbs] as values of [D]. *)
Variable ranges : list (list D).
Variable probs : list (list (list D)).

(** [std::min(a, b)] is [(b < a) ? b : a]; [std::max(a, b)] is
    [(a < b) ? b : a]. *)
Definition std_min (a b : D) : D := if dltb b a then b else a.
Definition std_max (a b : D) : D := if dltb a b then b else a.

(** [clip]: [std::max(range[0], std::min(val, range[1]))]. *)
Definition any_clip (val : D) (range : list D) : D :=
  std_max (nth 0 range (dlit 0)) (std_min val (nth 1 range (dlit 0))).

(** The cubic [xb] of the constructor's inner loop, before [std::exp]. *)
Definition any_logit (ctx : Z) (j : nat) (snr1 snr2 snr3 : D) : D :=
  let c := nth j (nth (Z.to_nat ctx) probs []) [] in
  dadd (dadd (dadd (nth 0 c (dlit 0)) (dmul snr1 (nth 1 c (dlit 0))))
             (dmul snr2 (nth 2 c (dlit 0))))
       (dmul snr3 (nth 3 c (dlit 0))).

(** One iteration of the inner loop: it writes [ctxTrans_[ctx][j + 1]] and
    adds to [sum]. *)
Definition any_ctxTrans_step (ctx : Z) (snr1 snr2 snr3 : D)
           (st : list D * D) (j : nat) : list D * D :=
  let xb := any_logit ctx j snr1 snr2 snr3 in
  let xb := dexp xb in
  (assign (j + 1) xb (fst st), dadd (snd st) xb).

(** The body of the constructor's loop for context [ctx]: the row
    [ctxTrans_[ctx]]. *)
Definition any_ctxTrans_ctor (snr : SNR D) (ctx : Z) : list D :=
  let bp := Z.land ctx 3 in
  let snr1 := any_clip (snr bp) (nth (Z.to_nat bp) ranges []) in
  let snr2 := dmul snr1 snr1 in
  let snr3 := dmul snr2 snr1 in
  let st := fold_left (any_ctxTrans_step ctx snr1 snr2 snr3) [0; 1; 2]%nat
                      (assign 0 (dlit 1) [dlit 0; dlit 0; dlit 0; dlit 0], dlit 1) in
  map (fun x => ddiv x (snd st)) (fst st).

End Constructor.

(** *** In binary64 *)

Section ConstructorFloat.
Import PrimFloat.

#[warnings="-inexact-float"]
Definition snrRanges_b64 : list (list float) :=
  [[4.001438; 9.300400];
   [7.132999; 18.840239];
   [4.017619; 9.839173];
   [5.553696; 15.040482]]%float.

#[warnings="-inexact-float"]
Definition transProbs_b64 : list (list (list float)) :=
  [[[-10.2090406; 3.32117257; -0.520117212; 0.0249921413];
    [8.9793309; -5.3961519; 0.763613361; -0.0364406433];
    [7.97224482; -3.91644241; 0.485967707; -0.0210642023]];
   [[-8.67385002; 1.79692678; -0.189152589; 0.00593875207];
    [-2.06471994; -0.248833169; 0.0239433129; -0.00081901914];
    [1.9844226; -0.834246008; 0.0238906298; 0.000299399008]];
   [[-5.57888183; 0.8609919; -0.0601847875; -0.00209638118];
    [-0.0651352822; -0.37813552; -0.116036072; 0.0118044463];
    [10.3924646; -4.87649024; 0.583074371; -0.0230668231]];
   [[-6.05918189; 1.12045586; -0.175515022; 0.0081588429];
    [-7.72954717; 1.74329164; -0.228908375; 0.00956968799];
    [0.739498015; -0.820985799; 0.034285628; 0.000308222633]];
   [[6.71916863; -4.10669176; 0.61911044; -0.0312872449];
    [-10.7393976; 3.94632964; -0.664301449; 0.0363137581];
    [0.534509761; -0.614208207; -0.0230577035; 0.00504754227]];
   [[-11.8487027; 2.18336459; -0.165744338; 0.00381936993];
    [-5.40511615; 0.582166777; -0.0352022429; 0.000649948647];
    [3.62707756; -1.60860162; 0.127123969; -0.00333194156]];
   [[-5.33620523; 1.30599458; -0.227619416; 0.0129127127];
    [-8.16537748; 2.82193426; -0.53094601; 0.0319445398];
    [13.0580439; -6.8013044; 0.926568827; -0.0424609205]];
   [[12.613656; -5.19052298; 0.561451908; -0.0206707933];
    [-9.73651127; 2.15521846; -0.225290947; 0.00767974576];
    [7.16886431; -2.96320727; 0.2726381; -0.00837654404]];
   [[-3.6938331; 0.483533725; -0.0450473465; 0.000160356592];
    [6.68949621; -4.66399411; 0.677757326; -0.0318630437];
    [1.33410944; -0.988217134; -0.00422287463; 0.00562702615]];
   [[2.66843035; -1.62797424; 0.147491681; -0.00444976878];
    [1.14199306; -0.843025302; 0.0604509646; -0.00133222978];
    [5.92824303; -2.33995279; 0.175825931; -0.00449046566]];
   [[-9.53335176; 2.51765873; -0.318510141; 0.0117320354];
    [-0.524486685; -0.436816275; -0.0926096178; 0.0112705438];
    [8.88135834; -4.79762534; 0.664134538; -0.0311007622]];
   [[3.35914891; -1.38173016; 0.0781044221; -0.000763136872];
    [10.8476498; -4.75169784; 0.525334182; -0.0193477301];
    [15.5403876; -5.8956994; 0.604296436; -0.0209965825]];
   [[5.16029404; -3.68434804; 0.621640606; -0.0350676726];
    [11.8825308; -7.04640014; 1.07909276; -0.0537996376];
    [-9.20746548; 4.71271573; -0.951489582; 0.0565839306]];
   [[2.73609906; -1.3992629; 0.120116348; -0.00349409007];
    [-4.54672948; 0.344140535; -0.0129698225; -0.000227430524];
    [0.840535522; -1.10879024; 0.0800657995; -0.00206209905]];
   [[-6.45925912; 1.63128009; -0.226062028; 0.0099607621];
    [-8.86160161; 3.12245384; -0.583442174; 0.033990528];
    [3.46514973; -1.91203442; 0.12119972; 0.00103341906]];
   [[2.70097834; -1.96301816; 0.246186023; -0.00988186677];
    [1.80568256; -1.56446979; 0.176114086; -0.00665610868];
    [1.91982573; -1.50191002; 0.153230363; -0.00550115233]]]%float.

(** The row [ctxTrans_[ctx]] that the constructor computes in binary64;
    [fexp] stands for the C library's [exp]. *)
Definition ctxTrans_b64 (fexp : float -> float) (snr : SNR float) (ctx : Z)
  : list float :=
  @any_ctxTrans_ctor float ieee_idlog fexp ltb
                     snrRanges_b64 transProbs_b64 snr ctx.

(** The C library's [exp] at the three logits of context AC (1) at an SNR
    of 8: exp(-3.3635604161600008), exp(-2.9423510660799996) and
    exp(-3.0072528647040002). *)
#[warnings="-inexact-float"]
Definition exp_AC_snr8 (x : float) : float :=
  if (x =? -3.3635604161600008)%float then 0.034611806868266239%float
  else if (x =? -2.9423510660799996)%float then 0.052741583910250668%float
  else if (x =? -3.0072528647040002)%float then 0.049427275837465791%float
  else nan.

(** The sum of the four entries of a row, added from the left. *)
Definition sum_b64 (row : list float) : float :=
  (nth 0 row 0 + nth 1 row 0 + nth 2 row 0 + nth 3 row 0)%float.

End ConstructorFloat.

(** *** In rounded real arithmetic *)

Local Open Scope R_scope.

(** The unit roundoff of binary64. *)
Definition unit_roundoff : R := / 2 ^ 53.

(** The integer nearest to [y], the even one of two that are equally
    near. *)
Definition nearest_even (y : R) : Z :=
  let f := Int_part y in
  if Rlt_dec (y - IZR f) (/ 2) then f
  else if Rlt_dec (/ 2) (y - IZR f) then (f + 1)%Z
  else if Z.even f then f else (f + 1)%Z.

(** The exponent [e] with [2 ^ e <= |x| < 2 ^ (e + 1)]. *)
Definition binade (x : R) : Z := Int_part (ln (Rabs x) / ln 2).

(** The significand of [x] scaled to [2 ^ 52, 2 ^ 53), and the integer
    it rounds to. *)
Definition scaled (x : R) : R := Rabs x * powerRZ 2 (52 - binade x).
Definition significand (x : R) : Z := nearest_even (scaled x).

(** Rounding to nearest, ties to even, with a significand of 53 bits:
    what a binary64 operation returns when its exact result is [x], for
    an [x] in the range of the normal numbers (the exponent is not
    bounded here, so there is no overflow and no gradual underflow). *)
Definition round64 (x : R) : R :=
  if Req_dec_T x 0 then 0
  else (if Rlt_dec x 0 then -1 else 1)
       * (IZR (significand x) * powerRZ 2 (binade x - 52)).

(** The arithmetic of [double] as IEEE-754 defines it: each operation
    returns its exact result rounded by [rnd]. *)
Definition rounded_Double (rnd : R -> R) : Double R := {|
  dlit := IZR;
  dadd := fun x y => rnd (x + y);
  dsub := fun x y => rnd (x - y);
  dmul := fun x y => rnd (x * y);
  ddiv := fun x y => rnd (x / y);
  dopp := Ropp;
  dlog := fun x => rnd (ln x);
  dsqrt := fun x => rnd (sqrt x);
  disfinite := fun _ => true
|}.

Definition Rltb (x y : R) : bool := if Rlt_dec x y then true else false.

(** The row [ctxTrans_[ctx]] that the constructor computes when every
    operation rounds by [rnd], for any [exp] and any tables. *)
Definition ctxTrans_rounded (rnd fexp : R -> R) (ranges : list (list R))
           (probs : list (list (list R))) (snr : SNR R) (ctx : Z) : list R :=
  @any_ctxTrans_ctor R (rounded_Double rnd) fexp Rltb ranges probs snr ctx.

(** What the normalisation needs of a rounding: a relative error of at
    most the unit roundoff, and that rounding does not cross 1. *)
Record rounding (rnd : R -> R) : Prop := {
  rounding_error : forall x, Rabs (rnd x - x) <= unit_roundoff * Rabs x;
  rounding_ge_1 : forall x, 1 <= x -> 1 <= rnd x;
  rounding_le_1 : forall x, 0 <= x <= 1 -> rnd x <= 1
}.

Local Close Scope R_scope.

(** * Properties *)

(** ** Bases and outcomes *)

Lemma TranslationTable_range (c : ascii) : 0 <= TranslationTable c <= 4.
Proof.
  unfold TranslationTable.
  repeat match goal with |- context [Ascii.eqb ?a ?b] => destruct (Ascii.eqb a b) end; lia.
Qed.

Lemma TranslationTable_ACGT (c : ascii) : TranslationTable c <= 3 <-> In c ACGT.
Proof.
  unfold TranslationTable, ACGT. split.
  - intros Hc.
    destruct (Ascii.eqb c "A") eqn:EA; [apply Ascii.eqb_eq in EA; subst; simpl; auto |].
    destruct (Ascii.eqb c "C") eqn:EC; [apply Ascii.eqb_eq in EC; subst; simpl; auto |].
    destruct (Ascii.eqb c "G") eqn:EG; [apply Ascii.eqb_eq in EG; subst; simpl; auto |].
    destruct (Ascii.eqb c "T") eqn:ET; [apply Ascii.eqb_eq in ET; subst; simpl; auto |].
    lia.
  - intros [E | [E | [E | [E | []]]]]; subst c; simpl; lia.
Qed.

(** The value stored by one iteration of [EncodeRead], for a pulse width
    that passed the first check and a base that passed the second. *)
Lemma emission_code (pwi bp : Z) :
  1 <= pwi -> 0 <= bp <= 3 ->
  u8 (Z.lor (Z.shiftl (u8 (Z.min 2 (pwi - 1))) 2) bp)
  = Z.lor (Z.shiftl (Z.min (pwi - 1) 2) 2) bp
  /\ 0 <= Z.lor (Z.shiftl (Z.min (pwi - 1) 2) 2) bp <= 11.
Proof.
  intros Hpw Hbp.
  rewrite (Z.min_comm 2).
  assert (Hm : Z.min (pwi - 1) 2 = 0 \/ Z.min (pwi - 1) 2 = 1 \/ Z.min (pwi - 1) 2 = 2) by lia.
  assert (Hb : bp = 0 \/ bp = 1 \/ bp = 2 \/ bp = 3) by lia.
  destruct Hm as [-> | [-> | ->]]; destruct Hb as [-> | [-> | [-> | ->]]];
    vm_compute; intuition congruence.
Qed.

Section EncodeReadFacts.
Variable read : MappedRead.

Hypothesis Hwf : wf_read read.

Lemma PulseWidthAt_nonneg (i : nat) : 0 <= PulseWidthAt read i.
Proof.
  unfold PulseWidthAt. destruct Hwf as [_ Hall].
  destruct (Nat.lt_ge_cases i (List.length (PulseWidth read))) as [Hlt | Hge].
  - rewrite Forall_forall in Hall. apply Hall, nth_In, Hlt.
  - rewrite nth_overflow by exact Hge. lia.
Qed.

Lemma passes_checks (i : nat) :
  passes read i ->
  (PulseWidthAt read i <? 1) = false /\ (TranslationTable (SeqAt read i) >? 3) = false.
Proof.
  intros [Hpw Hc]. pose proof (PulseWidthAt_nonneg i).
  apply TranslationTable_ACGT in Hc. split.
  - apply Z.ltb_ge. lia.
  - rewrite Z.gtb_ltb. apply Z.ltb_ge. lia.
Qed.

Lemma EncodeRead_loop_passes (n i : nat) (acc : list Z) :
  (forall k, (i <= k < i + n)%nat -> passes read k) ->
  EncodeRead_loop read i n acc
  = Ok (acc ++ map (fun k => outcome (PulseWidthAt read k) (SeqAt read k)) (seq i n)).
Proof.
  revert i acc. induction n as [| n IH]; intros i acc Hall; cbn [EncodeRead_loop seq map].
  - now rewrite app_nil_r.
  - assert (Hi : passes read i) by (apply Hall; lia).
    destruct (passes_checks i Hi) as [E1 E2]. rewrite E1, E2.
    apply Z.ltb_ge in E1. rewrite Z.gtb_ltb in E2. apply Z.ltb_ge in E2.
    pose proof (TranslationTable_range (SeqAt read i)) as Hr.
    destruct (emission_code (PulseWidthAt read i) (TranslationTable (SeqAt read i)))
      as [Eem Hem]; [lia | lia |].
    rewrite Eem.
    replace (_ >? 11) with false by (symmetry; rewrite Z.gtb_ltb; apply Z.ltb_ge; lia).
    rewrite IH by (intros k Hk; apply Hall; lia).
    rewrite <- app_assoc. reflexivity.
Qed.

Lemma EncodeRead_loop_stops (n i k : nat) (acc : list Z) :
  (i <= k < i + n)%nat ->
  (forall j, (i <= j < k)%nat -> passes read j) ->
  ~ passes read k ->
  EncodeRead_loop read i n acc
  = Throw (if PulseWidthAt read k =? 0 then InvalidPulseWidth else InvalidBase).
Proof.
  revert i acc. induction n as [| n IH]; intros i acc Hk Hbefore Hbad; [lia |].
  cbn [EncodeRead_loop]. destruct (Nat.eq_dec i k) as [-> | Hne].
  - pose proof (PulseWidthAt_nonneg k) as Hnn.
    destruct (PulseWidthAt read k =? 0) eqn:E0.
    + apply Z.eqb_eq in E0. rewrite E0. reflexivity.
    + apply Z.eqb_neq in E0.
      replace (PulseWidthAt read k <? 1) with false by (symmetry; apply Z.ltb_ge; lia).
      destruct (TranslationTable (SeqAt read k) >? 3) eqn:E3; [reflexivity |].
      exfalso. apply Hbad. split; [exact E0 |].
      apply TranslationTable_ACGT. rewrite Z.gtb_ltb in E3. apply Z.ltb_ge in E3. lia.
  - assert (Hi : passes read i) by (apply Hbefore; lia).
    destruct (passes_checks i Hi) as [E1 E2]. rewrite E1, E2.
    apply Z.ltb_ge in E1. rewrite Z.gtb_ltb in E2. apply Z.ltb_ge in E2.
    pose proof (TranslationTable_range (SeqAt read i)) as Hr.
    destruct (emission_code (PulseWidthAt read i) (TranslationTable (SeqAt read i)))
      as [Eem Hem]; [lia | lia |].
    rewrite Eem.
    replace (_ >? 11) with false by (symmetry; rewrite Z.gtb_ltb; apply Z.ltb_ge; lia).
    apply IH; [lia | intros j Hj; apply Hbefore; lia | exact Hbad].
Qed.

End EncodeReadFacts.

Lemma outcome_range (pw : Z) (c : ascii) :
  1 <= pw -> In c ACGT -> 0 <= outcome pw c <= 11.
Proof.
  intros Hpw Hc. apply TranslationTable_ACGT in Hc.
  pose proof (TranslationTable_range c). unfold outcome.
  apply emission_code; lia.
Qed.

Lemma encoded_length (read : MappedRead) :
  List.length (encoded read) = ReadLength read.
Proof. unfold encoded. now rewrite length_map, length_seq. Qed.

Lemma encoded_nth (read : MappedRead) (i : nat) :
  (i < ReadLength read)%nat ->
  nth i (encoded read) 0 = outcome (PulseWidthAt read i) (SeqAt read i).
Proof.
  intros Hi. unfold encoded.
  rewrite (nth_indep _ 0 (outcome (PulseWidthAt read 0) (SeqAt read 0)))
    by (now rewrite length_map, length_seq).
  rewrite (map_nth (fun k => outcome (PulseWidthAt read k) (SeqAt read k))).
  now rewrite seq_nth.
Qed.

(** C8 (as amended).  [EncodeRead] scans the read in order.  When every
    position has a non-zero pulse width and a character in {A,C,G,T} it
    returns a vector of the read's length whose element [i] is
    [(min(pw-1,2) << 2) | base], one of the 12 outcomes [0..11].  Otherwise
    the first position that fails decides the exception:
    [InvalidPulseWidth] when its pulse width is zero, [InvalidBase] when its
    pulse width is not zero and its character is not in {A,C,G,T}. *)
Theorem EncodeRead_first_offender (read : MappedRead) :
  wf_read read ->
  ((forall i, (i < ReadLength read)%nat -> passes read i) ->
   exists v, EncodeRead read = Ok v /\
             List.length v = ReadLength read /\
             forall i, (i < ReadLength read)%nat ->
                       nth i v 0 = outcome (PulseWidthAt read i) (SeqAt read i) /\
                       0 <= nth i v 0 <= 11) /\
  (forall k, (k < ReadLength read)%nat ->
             (forall i, (i < k)%nat -> passes read i) ->
             PulseWidthAt read k = 0 ->
             EncodeRead read = Throw InvalidPulseWidth) /\
  (forall k, (k < ReadLength read)%nat ->
             (forall i, (i < k)%nat -> passes read i) ->
             PulseWidthAt read k <> 0 -> ~ In (SeqAt read k) ACGT ->
             EncodeRead read = Throw InvalidBase).
Proof.
  intros Hwf. repeat split.
  - intros Hall. exists (encoded read). split; [| split].
    + unfold EncodeRead. rewrite (EncodeRead_loop_passes read Hwf).
      * reflexivity.
      * intros k Hk. apply Hall. lia.
    + apply encoded_length.
    + intros i Hi. rewrite (encoded_nth read i Hi). split; [reflexivity |].
      destruct (Hall i Hi) as [Hpw Hc].
      pose proof (PulseWidthAt_nonneg read Hwf i).
      apply outcome_range; [lia | exact Hc].
  - intros k Hk Hbefore Hzero. unfold EncodeRead.
    rewrite (EncodeRead_loop_stops read Hwf _ 0 k).
    + rewrite Hzero. reflexivity.
    + lia.
    + intros j Hj. apply Hbefore. lia.
    + intros [Hnz _]. contradiction.
  - intros k Hk Hbefore Hnz Hbad. unfold EncodeRead.
    rewrite (EncodeRead_loop_stops read Hwf _ 0 k).
    + apply Z.eqb_neq in Hnz. rewrite Hnz. reflexivity.
    + lia.
    + intros j Hj. apply Hbefore. lia.
    + intros [_ Hc]. contradiction.
Qed.

Lemma wf_read_AAAAAA : wf_read read_AAAAAA.
Proof.
  split; [reflexivity |].
  unfold read_AAAAAA; simpl. repeat constructor; lia.
Qed.

Lemma passes_read_AAAAAA (i : nat) :
  (i < ReadLength read_AAAAAA)%nat -> passes read_AAAAAA i.
Proof.
  unfold ReadLength; simpl. intros Hi.
  do 6 (destruct i as [| i]; [split; [discriminate | simpl; auto] |]).
  lia.
Qed.

Lemma EncodeRead_first_offender_witness :
  wf_read read_AAAAAA /\
  exists v, EncodeRead read_AAAAAA = Ok v /\ List.length v = 6%nat.
Proof.
  split; [exact wf_read_AAAAAA |].
  destruct (proj1 (EncodeRead_first_offender read_AAAAAA wf_read_AAAAAA)
                  passes_read_AAAAAA) as (v & Ev & Hlen & _).
  exists v. split; [exact Ev | exact Hlen].
Defined.

(** The scenario of the specification: pulse widths [1,2,3,1,1,1] on
    "AAAAAA" are encoded with outcomes in {0,4,8}. *)
Example EncodeRead_AAAAAA : EncodeRead read_AAAAAA = Ok [0; 4; 8; 0; 0; 0].
Proof. reflexivity. Qed.

(** C8 (counterexample).  On the read "NA" with pulse widths [1; 0] some
    pulse width is zero, yet [EncodeRead] throws the invalid-character
    exception raised at position 0, not [InvalidPulseWidth]. *)
Lemma EncodeRead_not_position_blind :
  wf_read read_NA /\ ~ EncodeRead_position_blind read_NA.
Proof.
  split.
  - split; [reflexivity |]. unfold read_NA; simpl. repeat constructor; lia.
  - intros [Hpw _].
    assert (E : EncodeRead read_NA = Throw InvalidPulseWidth).
    { apply Hpw. exists 1%nat. split; [unfold ReadLength; simpl; lia | reflexivity]. }
    vm_compute in E. discriminate E.
Qed.

Section EncodeReadBound.
Variable read : MappedRead.

Lemma EncodeRead_loop_bounded (n i : nat) (acc : list Z) :
  Forall (fun em => 0 <= em <= 11) acc ->
  EncodeRead_loop read i n acc <> Throw ReadEncodingError /\
  forall v, EncodeRead_loop read i n acc = Ok v ->
            Forall (fun em => 0 <= em <= 11) v.
Proof.
  revert i acc. induction n as [| n IH]; intros i acc Hacc; cbn [EncodeRead_loop].
  - split; [discriminate |]. intros v E. now injection E as <-.
  - destruct (PulseWidthAt read i <? 1) eqn:E1.
    { split; [discriminate | intros v E; discriminate E]. }
    destruct (TranslationTable (SeqAt read i) >? 3) eqn:E2.
    { split; [discriminate | intros v E; discriminate E]. }
    apply Z.ltb_ge in E1. rewrite Z.gtb_ltb in E2. apply Z.ltb_ge in E2.
    pose proof (TranslationTable_range (SeqAt read i)) as Hr.
    destruct (emission_code (PulseWidthAt read i) (TranslationTable (SeqAt read i)))
      as [Eem Hem]; [lia | lia |].
    rewrite Eem.
    replace (_ >? 11) with false by (symmetry; rewrite Z.gtb_ltb; apply Z.ltb_ge; lia).
    apply IH. apply Forall_app. split; [exact Hacc |].
    constructor; [exact Hem | constructor].
Qed.

End EncodeReadBound.

(** C9.  In [EncodeRead], at a position that passes the pulse-width check
    ([pw >= 1]) and the base check (encoding [<= 3]) the computed outcome
    is at most 11; so [EncodeRead] never throws "read encoding error!" and
    every element of a returned vector lies in [0, 11]. *)
Theorem EncodeRead_encoding_error_unreachable (read : MappedRead) :
  (forall i,
     (PulseWidthAt read i <? 1) = false ->
     (TranslationTable (SeqAt read i) >? 3) = false ->
     u8 (Z.lor (Z.shiftl (u8 (Z.min 2 (PulseWidthAt read i - 1))) 2)
               (TranslationTable (SeqAt read i))) <= 11) /\
  EncodeRead read <> Throw ReadEncodingError /\
  (forall v, EncodeRead read = Ok v -> Forall (fun em => 0 <= em <= 11) v).
Proof.
  split.
  - intros i E1 E2.
    apply Z.ltb_ge in E1. rewrite Z.gtb_ltb in E2. apply Z.ltb_ge in E2.
    pose proof (TranslationTable_range (SeqAt read i)) as Hr.
    destruct (emission_code (PulseWidthAt read i) (TranslationTable (SeqAt read i)))
      as [Eem Hem]; [lia | lia |].
    rewrite Eem. lia.
  - apply EncodeRead_loop_bounded. constructor.
Qed.

(** ** [Populate] *)

Section PopulateFacts.
Context {D : Type} `{Double D}.
Variable m : S_P1C1v2_Model D.

Lemma valid_base_check (c : ascii) :
  In c ACGT -> (TranslationTable c >? 3) = false.
Proof.
  intros Hc. apply TranslationTable_ACGT in Hc.
  rewrite Z.gtb_ltb. apply Z.ltb_ge. lia.
Qed.

Lemma seq_S_head (a n : nat) : seq a (S n) = a :: seq (S a) n.
Proof. reflexivity. Qed.

(** The loop appends to [result] the positions from index [length pre]
    on, where [pre] is the part of the template already consumed. *)
Lemma Populate_loop_populated (rest pre : list ascii) (prevc : ascii)
      (result : list (TemplatePosition D)) :
  Forall (fun c => In c ACGT) rest ->
  Populate_loop m prevc (TranslationTable prevc) rest result
  = Ok (result ++ map (position_at m (pre ++ prevc :: rest))
                      (seq (List.length pre) (S (List.length rest)))).
Proof.
  revert pre prevc result.
  induction rest as [| c rest IH]; intros pre prevc result Hvalid;
    cbn [Populate_loop].
  - cbn [seq map List.length]. unfold position_at.
    rewrite nth_middle.
    replace (S (List.length pre) <? List.length (pre ++ [prevc]))%nat with false
      by (symmetry; apply Nat.ltb_ge; rewrite length_app; simpl; lia).
    reflexivity.
  - inversion Hvalid as [| c' rest' Hc Hrest]; subst.
    rewrite (valid_base_check c Hc).
    rewrite (IH (pre ++ [prevc]) c _ Hrest).
    rewrite <- !app_assoc. cbn [app].
    rewrite length_app. cbn [List.length]. rewrite Nat.add_1_r.
    rewrite (seq_S_head (List.length pre) (S (List.length rest))). cbn [map].
    do 3 f_equal.
    unfold position_at. rewrite nth_middle.
    replace (S (List.length pre) <? List.length (pre ++ prevc :: c :: rest))%nat
      with true
      by (symmetry; apply Nat.ltb_lt; rewrite length_app; simpl; lia).
    replace (nth (S (List.length pre)) (pre ++ prevc :: c :: rest) Ascii.zero)
      with c; [reflexivity |].
    rewrite app_nth2 by lia.
    replace (S (List.length pre) - List.length pre)%nat with 1%nat by lia.
    reflexivity.
Qed.

Lemma Populate_populated (tpl : string) :
  Forall (fun c => In c ACGT) (list_ascii_of_string tpl) ->
  Populate m tpl = Ok (populated m (list_ascii_of_string tpl)).
Proof.
  unfold Populate, populated. intros Hvalid.
  destruct (list_ascii_of_string tpl) as [| c0 rest]; [reflexivity |].
  inversion Hvalid as [| c' rest' Hc Hrest]; subst.
  rewrite (valid_base_check c0 Hc).
  rewrite (Populate_loop_populated rest [] c0 [] Hrest).
  reflexivity.
Qed.

Lemma populated_nth_error (tpl : list ascii) (i : nat) :
  (i < List.length tpl)%nat ->
  nth_error (populated m tpl) i = Some (position_at m tpl i).
Proof.
  intros Hi. unfold populated.
  rewrite nth_error_map, nth_error_nth' with (d := 0%nat) by (now rewrite length_seq).
  now rewrite seq_nth.
Qed.

End PopulateFacts.

(** C7.  For a template string of length [L] over {A,C,G,T}, [Populate]
    returns [L] positions; for [1 <= i < L] position [i-1] carries the base
    [tpl[i-1]], its encoding, and as match, branch, stick and deletion the
    entries 0, 1, 2 and 3 of the row of the transition table at the context
    [(enc tpl[i-1] << 2) | enc tpl[i]]; the last position carries
    (match, branch, stick, deletion) = (1, 0, 0, 0).  For the empty string
    it returns the empty sequence. *)
Theorem Populate_positions {D : Type} `{Double D}
        (m : S_P1C1v2_Model D) (tpl : string) :
  Forall (fun c => In c ACGT) (list_ascii_of_string tpl) ->
  let base i := nth i (list_ascii_of_string tpl) Ascii.zero in
  let enc i := TranslationTable (base i) in
  let L := String.length tpl in
  (exists v,
     Populate m tpl = Ok v /\
     List.length v = L /\
     (forall i, (1 <= i < L)%nat ->
        let stored :=
          nth (Z.to_nat (Z.lor (Z.shiftl (enc (i - 1)%nat) 2) (enc i)))
              (ctxTrans_ m) [] in
        exists p, nth_error v (i - 1) = Some p /\
                  Base p = base (i - 1)%nat /\
                  Idx p = enc (i - 1)%nat /\
                  Match p = nth 0 stored (dlit 0) /\
                  Branch p = nth 1 stored (dlit 0) /\
                  Stick p = nth 2 stored (dlit 0) /\
                  Deletion p = nth 3 stored (dlit 0)) /\
     (L <> 0%nat ->
      exists p, nth_error v (L - 1) = Some p /\
                Base p = base (L - 1)%nat /\
                Idx p = enc (L - 1)%nat /\
                Match p = dlit 1 /\ Branch p = dlit 0 /\
                Stick p = dlit 0 /\ Deletion p = dlit 0)) /\
  Populate m "" = Ok [].
Proof.
  intros Hvalid base enc L. split; [| reflexivity].
  assert (HL : List.length (list_ascii_of_string tpl) = L).
  { subst L. clear. induction tpl as [| c s IH]; simpl; [reflexivity | now rewrite IH]. }
  exists (populated m (list_ascii_of_string tpl)). split; [| split; [| split]].
  - apply Populate_populated, Hvalid.
  - unfold populated. now rewrite length_map, length_seq.
  - intros i Hi stored. exists (position_at m (list_ascii_of_string tpl) (i - 1)).
    split; [apply populated_nth_error; lia |].
    unfold position_at.
    replace (S (i - 1) <? List.length (list_ascii_of_string tpl))%nat with true
      by (symmetry; apply Nat.ltb_lt; lia).
    replace (S (i - 1)) with i by lia.
    repeat split.
  - intros Hne. exists (position_at m (list_ascii_of_string tpl) (L - 1)).
    split; [apply populated_nth_error; lia |].
    unfold position_at.
    replace (S (L - 1) <? List.length (list_ascii_of_string tpl))%nat with false
      by (symmetry; apply Nat.ltb_ge; lia).
    repeat split.
Qed.

(** ** The transition probabilities of the model *)

Local Open Scope R_scope.

Lemma base_of_context (ctx : Z) :
  let bp := Z.land ctx 3 in (bp = 0 \/ bp = 1 \/ bp = 2 \/ bp = 3)%Z.
Proof.
  intros bp. subst bp.
  pose proof (Z.land_ones ctx 2 ltac:(lia)) as E.
  change (Z.ones 2) with 3%Z in E. change (2 ^ 2)%Z with 4%Z in E. rewrite E.
  pose proof (Z.mod_pos_bound ctx 4 ltac:(lia)). lia.
Qed.

Lemma ctxTrans_new_row (snr : SNR R) (ctx : Z) :
  (0 <= ctx < 16)%Z ->
  nth (Z.to_nat ctx) (ctxTrans_ (S_P1C1v2_Model_new snr)) [] = ctxTrans_ctor snr ctx.
Proof.
  intros Hctx. cbn [S_P1C1v2_Model_new ctxTrans_].
  assert (Hlt : (Z.to_nat ctx < nContexts)%nat) by (unfold nContexts; lia).
  rewrite (nth_indep _ [] (ctxTrans_ctor snr (Z.of_nat 0)))
    by (now rewrite length_map, length_seq).
  rewrite (map_nth (fun c => ctxTrans_ctor snr (Z.of_nat c))).
  rewrite seq_nth by exact Hlt. cbn [Nat.add].
  now rewrite Z2Nat.id by lia.
Qed.

(** In exact real arithmetic the constructor over any [double] is
    [ctxTrans_ctor]. *)
Lemma any_clip_exact (val : R) (range : list R) :
  @any_clip R R_Double Rltb val range = clip val range.
Proof.
  unfold any_clip, std_max, std_min, clip, Rltb, Rmax, Rmin.
  cbn [dlit R_Double].
  repeat destruct (Rlt_dec _ _); repeat destruct (Rle_dec _ _); lra.
Qed.

Lemma any_ctxTrans_ctor_exact (snr : SNR R) (ctx : Z) :
  @any_ctxTrans_ctor R R_Double exp Rltb snrRanges transProbs snr ctx
  = ctxTrans_ctor snr ctx.
Proof.
  unfold any_ctxTrans_ctor, ctxTrans_ctor. rewrite any_clip_exact. reflexivity.
Qed.

(** ** Rounding to binary64 *)

Lemma Rabs_le_inv (a b : R) : Rabs a <= b -> - b <= a <= b.
Proof. unfold Rabs. destruct (Rcase_abs a); lra. Qed.

Lemma Int_part_bounds (y : R) : IZR (Int_part y) <= y < IZR (Int_part y) + 1.
Proof. destruct (base_Int_part y). lra. Qed.

Lemma nearest_even_error (y : R) :
  Rabs (IZR (nearest_even y) - y) <= / 2 /\
  (Int_part y <= nearest_even y <= Int_part y + 1)%Z.
Proof.
  unfold nearest_even. pose proof (Int_part_bounds y) as Hb.
  destruct (Rlt_dec _ _) as [H1 | H1].
  - split; [| lia]. apply Rabs_le. lra.
  - destruct (Rlt_dec _ _) as [H2 | H2].
    + split; [| lia]. rewrite plus_IZR. apply Rabs_le. lra.
    + destruct (Z.even _).
      * split; [| lia]. apply Rabs_le. lra.
      * split; [| lia]. rewrite plus_IZR. apply Rabs_le. lra.
Qed.

Lemma nearest_even_IZR (z : Z) : nearest_even (IZR z) = z.
Proof.
  unfold nearest_even.
  assert (E : Int_part (IZR z) = z).
  { symmetry. apply Int_part_spec. lra. }
  rewrite E. destruct (Rlt_dec _ _) as [H1 | H1]; [reflexivity | lra].
Qed.

Lemma ln2_pos : 0 < ln 2.
Proof. rewrite <- ln_1. apply ln_increasing; lra. Qed.

Lemma powerRZ_2_pos (e : Z) : 0 < powerRZ 2 e.
Proof. apply powerRZ_lt. lra. Qed.

Lemma binade_spec (x : R) :
  x <> 0 -> powerRZ 2 (binade x) <= Rabs x < powerRZ 2 (binade x + 1).
Proof.
  intros Hx. assert (Hpos : 0 < Rabs x) by now apply Rabs_pos_lt.
  pose proof ln2_pos as Hl.
  pose proof (Int_part_bounds (ln (Rabs x) / ln 2)) as [Hlo Hhi].
  fold (binade x) in Hlo, Hhi.
  rewrite !powerRZ_Rpower by lra. unfold Rpower.
  assert (E : ln (Rabs x) = ln (Rabs x) / ln 2 * ln 2) by (field; lra).
  assert (Ex : Rabs x = exp (ln (Rabs x))) by (symmetry; now apply exp_ln).
  set (e := binade x) in *. set (l := ln (Rabs x)) in *.
  rewrite Ex. clearbody l e. clear Ex.
  split.
  - assert (Hle : IZR e * ln 2 <= l).
    { rewrite E. apply Rmult_le_compat_r; lra. }
    destruct (Rle_lt_or_eq_dec _ _ Hle) as [Hlt | Heq].
    + left. now apply exp_increasing.
    + right. now rewrite Heq.
  - apply exp_increasing. rewrite plus_IZR. rewrite E at 1.
    apply Rmult_lt_compat_r; lra.
Qed.

Lemma powerRZ_2_shift (e : Z) :
  powerRZ 2 (52 - e) = 2 ^ 52 / powerRZ 2 e /\
  powerRZ 2 (e - 52) = powerRZ 2 e / 2 ^ 52 /\
  powerRZ 2 (e + 1) = 2 * powerRZ 2 e.
Proof.
  pose proof (powerRZ_2_pos e) as Hp.
  assert (E52 : powerRZ 2 52 = 2 ^ 52) by reflexivity.
  assert (Em52 : powerRZ 2 (-52) = / 2 ^ 52) by reflexivity.
  repeat split.
  - replace (52 - e)%Z with (52 + - e)%Z by lia.
    rewrite powerRZ_add by lra. rewrite powerRZ_neg', E52. reflexivity.
  - replace (e - 52)%Z with (e + - 52)%Z by lia.
    rewrite powerRZ_add by lra. now rewrite Em52.
  - rewrite powerRZ_add by lra. simpl. lra.
Qed.

Section Round64.
Variable x : R.
Hypothesis Hx : x <> 0.

Lemma round64_scaled :
  0 < powerRZ 2 (binade x) /\
  powerRZ 2 (binade x) <= Rabs x < 2 * powerRZ 2 (binade x) /\
  Rabs x = scaled x * (powerRZ 2 (binade x) / 2 ^ 52) /\
  2 ^ 52 <= scaled x < 2 ^ 53.
Proof.
  pose proof (powerRZ_2_pos (binade x)) as Hq.
  pose proof (binade_spec x Hx) as Hb.
  destruct (powerRZ_2_shift (binade x)) as (E1 & E2 & E3).
  rewrite E3 in Hb. unfold scaled. rewrite E1.
  set (q := powerRZ 2 (binade x)) in *.
  split; [exact Hq |]. split; [exact Hb |]. split.
  - field. lra.
  - assert (Hinv : 0 < / q) by now apply Rinv_0_lt_compat.
    assert (Hone : q * / q = 1) by (field; lra).
    unfold Rdiv. split.
    + assert (2 ^ 52 * (q * / q) <= 2 ^ 52 * (Rabs x * / q)).
      { apply Rmult_le_compat_l; [lra |]. apply Rmult_le_compat_r; lra. }
      lra.
    + assert (2 ^ 52 * (Rabs x * / q) < 2 ^ 52 * (2 * q * / q)).
      { apply Rmult_lt_compat_l; [lra |]. apply Rmult_lt_compat_r; lra. }
      lra.
Qed.

Lemma round64_significand :
  2 ^ 52 <= IZR (significand x) <= 2 ^ 53 /\
  Rabs (IZR (significand x) - scaled x) <= / 2.
Proof.
  destruct round64_scaled as (_ & _ & _ & Hy).
  destruct (nearest_even_error (scaled x)) as [Herr Hm].
  fold (significand x) in Herr, Hm.
  split; [| exact Herr].
  pose proof (Int_part_bounds (scaled x)) as Hb.
  assert (E52 : 2 ^ 52 = IZR (2 ^ 52)) by (rewrite pow_IZR; reflexivity).
  assert (E53 : 2 ^ 53 = IZR (2 ^ 53)) by (rewrite pow_IZR; reflexivity).
  assert (H52 : (2 ^ 52 <= Int_part (scaled x))%Z).
  { assert (Hlt : IZR (2 ^ 52 - 1) < IZR (Int_part (scaled x))).
    { rewrite minus_IZR, <- E52. lra. }
    apply lt_IZR in Hlt. lia. }
  assert (H53 : (Int_part (scaled x) + 1 <= 2 ^ 53)%Z).
  { assert (Hlt : IZR (Int_part (scaled x)) < IZR (2 ^ 53)) by (rewrite <- E53; lra).
    apply lt_IZR in Hlt. lia. }
  rewrite E52, E53. split; apply IZR_le; lia.
Qed.

Lemma round64_unfold :
  round64 x
  = (if Rlt_dec x 0 then -1 else 1)
    * (IZR (significand x) * (powerRZ 2 (binade x) / 2 ^ 52)).
Proof.
  unfold round64. destruct (Req_dec_T x 0) as [E | _]; [contradiction |].
  destruct (powerRZ_2_shift (binade x)) as (_ & E2 & _). now rewrite E2.
Qed.

Lemma round64_error : Rabs (round64 x - x) <= unit_roundoff * Rabs x.
Proof.
  destruct round64_scaled as (Hq & Hb & Ex & Hy).
  destruct round64_significand as [Hm Herr].
  rewrite round64_unfold. unfold unit_roundoff.
  apply Rabs_le_inv in Herr.
  set (q := powerRZ 2 (binade x)) in *.
  set (y := scaled x) in *. set (m := significand x) in *.
  assert (Hp : 0 < q / 2 ^ 52) by (apply Rdiv_lt_0_compat; lra).
  set (p := q / 2 ^ 52) in *.
  assert (Hq' : q = p * 2 ^ 52) by (unfold p; field).
  assert (H1 : - (/ 2) * p <= IZR m * p - y * p <= / 2 * p).
  { replace (IZR m * p - y * p) with ((IZR m - y) * p) by ring.
    split; apply Rmult_le_compat_r; lra. }
  destruct (Rlt_dec x 0) as [Hneg | Hpos].
  - rewrite (Rabs_left x Hneg) in *.
    apply Rabs_le. lra.
  - rewrite (Rabs_right x) in * by lra.
    apply Rabs_le. lra.
Qed.

(** The rounded value stays in the closed binade of [x]. *)
Lemma round64_binade :
  powerRZ 2 (binade x) <= Rabs (round64 x) <= 2 * powerRZ 2 (binade x).
Proof.
  destruct round64_scaled as (Hq & Hb & Ex & Hy).
  destruct round64_significand as [Hm Herr].
  rewrite round64_unfold.
  set (q := powerRZ 2 (binade x)) in *.
  set (m := significand x) in *.
  assert (Hp : 0 < q / 2 ^ 52) by (apply Rdiv_lt_0_compat; lra).
  set (p := q / 2 ^ 52) in *.
  assert (Hq' : q = p * 2 ^ 52) by (unfold p; field).
  assert (H1 : 2 ^ 52 * p <= IZR m * p <= 2 ^ 53 * p).
  { split; apply Rmult_le_compat_r; lra. }
  assert (Hnn : 0 <= IZR m * p) by (apply Rmult_le_pos; lra).
  destruct (Rlt_dec x 0) as [Hneg | Hpos].
  - replace (-1 * (IZR m * p)) with (- (IZR m * p)) by ring.
    rewrite Rabs_Ropp, Rabs_right by lra. lra.
  - rewrite Rmult_1_l, Rabs_right by lra. lra.
Qed.

End Round64.

Lemma round64_0 : round64 0 = 0.
Proof. unfold round64. destruct (Req_dec_T 0 0); [reflexivity | contradiction]. Qed.

Lemma round64_nonneg (x : R) : 0 <= x -> 0 <= round64 x.
Proof.
  intros Hx. destruct (Req_dec_T x 0) as [-> | Hne]; [rewrite round64_0; lra |].
  rewrite (round64_unfold x Hne).
  destruct (round64_scaled x Hne) as (Hq & _).
  destruct (round64_significand x Hne) as [Hm _].
  destruct (Rlt_dec x 0); [lra |].
  rewrite Rmult_1_l. apply Rmult_le_pos; [lra |].
  apply Rlt_le, Rdiv_lt_0_compat; lra.
Qed.

Lemma binade_ge_1 (x : R) : 1 <= x -> (0 <= binade x)%Z.
Proof.
  intros Hx. unfold binade. rewrite Rabs_right by lra.
  pose proof ln2_pos as Hl.
  assert (H0 : 0 <= ln x / ln 2).
  { apply Rmult_le_pos; [| apply Rlt_le, Rinv_0_lt_compat; lra].
    rewrite <- ln_1. destruct (Req_dec_T x 1) as [-> | Hne]; [lra |].
    apply Rlt_le, ln_increasing; lra. }
  pose proof (Int_part_bounds (ln x / ln 2)) as Hb.
  assert (Hlt : IZR (-1) < IZR (Int_part (ln x / ln 2))) by lra.
  apply lt_IZR in Hlt. lia.
Qed.

Lemma binade_lt_1 (x : R) : 0 < x < 1 -> (binade x < 0)%Z.
Proof.
  intros Hx. unfold binade. rewrite Rabs_right by lra.
  pose proof ln2_pos as Hl.
  assert (H0 : ln x / ln 2 < 0).
  { assert (Hln : ln x < 0) by (rewrite <- ln_1; apply ln_increasing; lra).
    assert (Hinv : 0 < / ln 2) by (apply Rinv_0_lt_compat; lra).
    unfold Rdiv. nra. }
  pose proof (Int_part_bounds (ln x / ln 2)) as Hb.
  assert (Hlt : IZR (Int_part (ln x / ln 2)) < IZR 0) by lra.
  apply lt_IZR in Hlt. lia.
Qed.

Lemma powerRZ_2_ge_1 (e : Z) : (0 <= e)%Z -> 1 <= powerRZ 2 e.
Proof.
  intros He. rewrite powerRZ_Rpower by lra. unfold Rpower. rewrite <- exp_0.
  pose proof ln2_pos as Hl. apply IZR_le in He.
  assert (H0 : 0 <= IZR e * ln 2) by (apply Rmult_le_pos; lra).
  destruct (Rle_lt_or_eq_dec _ _ H0) as [Hlt | <-]; [| lra].
  left. now apply exp_increasing.
Qed.

Lemma powerRZ_2_le_1 (e : Z) : (e <= 0)%Z -> powerRZ 2 e <= 1.
Proof.
  intros He. rewrite powerRZ_Rpower by lra. unfold Rpower. rewrite <- exp_0.
  pose proof ln2_pos as Hl. apply IZR_le in He.
  assert (H0 : IZR e * ln 2 <= 0) by nra.
  destruct (Rle_lt_or_eq_dec _ _ H0) as [Hlt | ->]; [| lra].
  left. now apply exp_increasing.
Qed.

Lemma round64_1 : round64 1 = 1.
Proof.
  assert (Hne : 1 <> 0) by lra.
  rewrite (round64_unfold 1 Hne).
  assert (Eb : binade 1 = 0%Z).
  { unfold binade. rewrite Rabs_R1, ln_1. symmetry. apply Int_part_spec.
    unfold Rdiv. rewrite Rmult_0_l. lra. }
  assert (E52 : scaled 1 = IZR (2 ^ 52)).
  { unfold scaled. rewrite Eb, Rabs_R1, Rmult_1_l. change (52 - 0)%Z with 52%Z.
    change (powerRZ 2 52) with (2 ^ 52). rewrite pow_IZR. reflexivity. }
  unfold significand. rewrite E52, nearest_even_IZR, Eb.
  destruct (Rlt_dec 1 0); [lra |].
  change (powerRZ 2 0) with 1.
  replace (IZR (2 ^ 52)) with (2 ^ 52) by (rewrite pow_IZR; reflexivity).
  field.
Qed.

Lemma round64_ge_1 (x : R) : 1 <= x -> 1 <= round64 x.
Proof.
  intros Hx. assert (Hne : x <> 0) by lra.
  pose proof (round64_binade x Hne) as [Hlo _].
  pose proof (round64_nonneg x ltac:(lra)) as Hnn.
  rewrite Rabs_right in Hlo by lra.
  pose proof (powerRZ_2_ge_1 _ (binade_ge_1 x Hx)). lra.
Qed.

Lemma round64_le_1 (x : R) : 0 <= x <= 1 -> round64 x <= 1.
Proof.
  intros [H0 H1].
  destruct (Req_dec_T x 0) as [-> | Hne]; [rewrite round64_0; lra |].
  destruct (Req_dec_T x 1) as [-> | Hne1]; [rewrite round64_1; lra |].
  pose proof (round64_binade x Hne) as [_ Hhi].
  pose proof (round64_nonneg x H0) as Hnn.
  rewrite Rabs_right in Hhi by lra.
  assert (He : (binade x + 1 <= 0)%Z) by (pose proof (binade_lt_1 x ltac:(lra)); lia).
  apply powerRZ_2_le_1 in He.
  destruct (powerRZ_2_shift (binade x)) as (_ & _ & E3). lra.
Qed.

Lemma round64_error_all (x : R) : Rabs (round64 x - x) <= unit_roundoff * Rabs x.
Proof.
  destruct (Req_dec_T x 0) as [-> | Hne]; [| now apply round64_error].
  rewrite round64_0, Rminus_0_r, Rabs_R0. lra.
Qed.

Lemma round64_rounding : rounding round64.
Proof.
  split.
  - apply round64_error_all.
  - apply round64_ge_1.
  - apply round64_le_1.
Qed.

Section RoundedNormalisation.
Variable rnd : R -> R.
Hypothesis Hrnd : rounding rnd.

Lemma rounding_bounds (x : R) :
  0 <= x -> (1 - 2e-16) * x <= rnd x <= (1 + 2e-16) * x.
Proof.
  intros Hx. pose proof (rounding_error rnd Hrnd x) as He.
  rewrite (Rabs_right x) in He by lra.
  apply Rabs_le_inv in He.
  assert (Hu : unit_roundoff * x <= 2e-16 * x).
  { apply Rmult_le_compat_r; [exact Hx |]. unfold unit_roundoff. lra. }
  lra.
Qed.

Lemma quotient_bounds (t s lo hi : R) :
  0 < t -> 0 < s -> 0 < lo -> lo * t <= s -> s <= hi * t ->
  / hi <= t / s <= / lo.
Proof.
  intros Ht Hs Hlo H1 H2.
  assert (Hhi : 0 < hi).
  { destruct (Rlt_dec 0 hi) as [Hp | Hn]; [exact Hp |].
    assert (hi * t <= 0 * t) by (apply Rmult_le_compat_r; lra). lra. }
  assert (Hinv : 0 < / s) by now apply Rinv_0_lt_compat.
  unfold Rdiv. split.
  - apply (Rmult_le_reg_r (hi * s)); [now apply Rmult_lt_0_compat |].
    replace (/ hi * (hi * s)) with s by (field; lra).
    replace (t * / s * (hi * s)) with (hi * t) by (field; lra).
    exact H2.
  - apply (Rmult_le_reg_r (lo * s)); [now apply Rmult_lt_0_compat |].
    replace (/ lo * (lo * s)) with s by (field; lra).
    replace (t * / s * (lo * s)) with (lo * t) by (field; lra).
    exact H1.
Qed.

(** Normalising (1, a, b, c) when every operation rounds: the sum is
    added from the left starting at 1, every entry is divided by it. *)
Lemma rounded_softmax (a b c : R) :
  0 <= a -> 0 <= b -> 0 <= c ->
  let sum := rnd (rnd (rnd (1 + a) + b) + c) in
  let m := rnd (1 / sum) in
  let pa := rnd (a / sum) in
  let pb := rnd (b / sum) in
  let pc := rnd (c / sum) in
  Rabs (m + pa + pb + pc - 1) <= 1e-14 /\
  Rabs (rnd (rnd (rnd (m + pa) + pb) + pc) - 1) <= 1e-14 /\
  0 < m <= 1 /\ 0 <= pa /\ 0 <= pb /\ 0 <= pc.
Proof.
  intros Ha Hb Hc sum m pa pb pc.
  pose proof (rounding_ge_1 rnd Hrnd) as Hge.
  pose proof (rounding_le_1 rnd Hrnd) as Hle.
  (* the sum *)
  assert (H1 : 1 <= rnd (1 + a)) by (apply Hge; lra).
  pose proof (rounding_bounds (1 + a) ltac:(lra)) as B1.
  assert (H2 : 1 <= rnd (rnd (1 + a) + b)) by (apply Hge; lra).
  pose proof (rounding_bounds (rnd (1 + a) + b) ltac:(lra)) as B2.
  assert (H3 : 1 <= sum) by (apply Hge; lra).
  pose proof (rounding_bounds (rnd (rnd (1 + a) + b) + c) ltac:(lra)) as B3.
  fold sum in B3.
  set (t := 1 + a + b + c).
  assert (Hlo : (1 - 6e-16) * t <= sum) by (unfold t; lra).
  assert (Hhi : sum <= (1 + 8e-16) * t) by (unfold t; lra).
  destruct (quotient_bounds t sum (1 - 6e-16) (1 + 8e-16)
                            ltac:(unfold t; lra) ltac:(lra) ltac:(lra) Hlo Hhi)
    as [Q1 Q2].
  assert (Q1' : 1 - 8e-16 <= t / sum).
  { apply Rle_trans with (2 := Q1).
    apply (Rmult_le_reg_r (1 + 8e-16)); [lra |]. rewrite Rinv_l by lra. lra. }
  assert (Q2' : t / sum <= 1 + 8e-16).
  { apply Rle_trans with (1 := Q2).
    apply (Rmult_le_reg_r (1 - 6e-16)); [lra |]. rewrite Rinv_l by lra. lra. }
  (* the quotients *)
  assert (Hinv : 0 < / sum) by (apply Rinv_0_lt_compat; lra).
  assert (Hq1 : 0 < 1 / sum <= 1).
  { unfold Rdiv. rewrite Rmult_1_l. split; [exact Hinv |].
    rewrite <- Rinv_1. apply Rinv_le_contravar; lra. }
  assert (Hqa : 0 <= a / sum) by (apply Rmult_le_pos; lra).
  assert (Hqb : 0 <= b / sum) by (apply Rmult_le_pos; lra).
  assert (Hqc : 0 <= c / sum) by (apply Rmult_le_pos; lra).
  pose proof (rounding_bounds (1 / sum) ltac:(lra)) as Bm. fold m in Bm.
  pose proof (rounding_bounds (a / sum) Hqa) as Ba. fold pa in Ba.
  pose proof (rounding_bounds (b / sum) Hqb) as Bb. fold pb in Bb.
  pose proof (rounding_bounds (c / sum) Hqc) as Bc. fold pc in Bc.
  assert (Et : 1 / sum + a / sum + b / sum + c / sum = t / sum)
    by (unfold t; field; lra).
  assert (Hm1 : m <= 1) by (apply Hle; lra).
  clearbody m pa pb pc.
  set (q1 := 1 / sum) in *. set (qa := a / sum) in *.
  set (qb := b / sum) in *. set (qc := c / sum) in *.
  set (r := t / sum) in *.
  clearbody q1 qa qb qc r.
  assert (Hq : 1 - 2e-15 <= m + pa + pb + pc <= 1 + 2e-15) by lra.
  split; [apply Rabs_le; lra |].
  split; [| lra].
  pose proof (rounding_bounds (m + pa) ltac:(lra)) as C1.
  pose proof (rounding_bounds (rnd (m + pa) + pb) ltac:(lra)) as C2.
  pose proof (rounding_bounds (rnd (rnd (m + pa) + pb) + pc) ltac:(lra)) as C3.
  apply Rabs_le. lra.
Qed.

End RoundedNormalisation.

Local Close Scope R_scope.

(** ** Comparisons in binary64 *)

Section FloatOrder.
Import PrimFloat SpecFloat FloatOps.

Lemma SFcompare_antisym (x y : spec_float) :
  SFcompare y x = option_map CompOpp (SFcompare x y).
Proof.
  destruct x as [sx | sx | | sx mx ex], y as [sy | sy | | sy my ey];
    try reflexivity;
    try (destruct sx; reflexivity); try (destruct sy; reflexivity);
    try (destruct sx, sy; reflexivity).
  cbn [SFcompare option_map].
  destruct sx, sy; try reflexivity.
  - rewrite (Z.compare_antisym ex ey).
    destruct (ex ?= ey)%Z; cbn [CompOpp]; try reflexivity.
    now rewrite (ZC4 my mx).
  - rewrite (Z.compare_antisym ex ey).
    destruct (ex ?= ey)%Z; cbn [CompOpp]; try reflexivity.
    now rewrite (ZC4 my mx).
Qed.

Lemma SFcompare_Eq (x y : spec_float) :
  SFcompare x y = Some Eq ->
  x = y \/ exists s s', x = S754_zero s /\ y = S754_zero s'.
Proof.
  destruct x as [sx | sx | | sx mx ex], y as [sy | sy | | sy my ey];
    cbn [SFcompare]; try discriminate;
    try (destruct sx; discriminate); try (destruct sy; discriminate).
  - intros _. right. eauto.
  - destruct sx, sy; try discriminate; auto.
  - destruct sx, sy; try discriminate;
      (destruct (ex ?= ey)%Z eqn:Ee; try discriminate);
      apply Z.compare_eq in Ee; subst ey;
      destruct (Pos.compare_cont Eq mx my) eqn:Em; try discriminate;
      apply Pcompare_Eq_eq in Em; subst my; auto.
Qed.

Lemma SFcompare_None (x y : spec_float) :
  SFcompare x y = None -> SFcompare x x = None \/ SFcompare y y = None.
Proof.
  destruct x as [sx | sx | | sx mx ex], y as [sy | sy | | sy my ey];
    cbn [SFcompare]; try discriminate; auto.
Qed.

(** [x < y] gives [x <= y]. *)
Lemma ltb_leb (x y : float) : (x <? y)%float = true -> (x <=? y)%float = true.
Proof.
  rewrite FloatAxioms.ltb_spec, FloatAxioms.leb_spec. unfold SFltb, SFleb.
  now destruct (SFcompare _ _) as [[] |].
Qed.

(** [x <= y] excludes [y < x]. *)
Lemma leb_not_ltb (x y : float) : (x <=? y)%float = true -> (y <? x)%float = false.
Proof.
  rewrite FloatAxioms.ltb_spec, FloatAxioms.leb_spec. unfold SFltb, SFleb.
  rewrite (SFcompare_antisym (Prim2SF x) (Prim2SF y)).
  now destruct (SFcompare _ _) as [[] |].
Qed.

(** A number that takes part in a true comparison is not a NaN. *)
Lemma ltb_ordered (x y : float) :
  (x <? y)%float = true -> (x <=? x)%float = true /\ (y <=? y)%float = true.
Proof.
  rewrite FloatAxioms.ltb_spec, !FloatAxioms.leb_spec. unfold SFltb, SFleb.
  destruct (Prim2SF x) as [sx | sx | | sx mx ex], (Prim2SF y) as [sy | sy | | sy my ey];
    cbn [SFcompare]; try discriminate; intros _;
    rewrite ?Z.compare_refl, ?Pcompare_refl;
    split; try reflexivity; try (destruct sx; reflexivity);
    try (destruct sy; reflexivity).
Qed.

(** Two numbers that are not NaN are ordered one way or the other. *)
Lemma not_ltb_leb (x y : float) :
  (x <=? x)%float = true -> (y <=? y)%float = true ->
  (x <? y)%float = false -> (y <=? x)%float = true.
Proof.
  rewrite FloatAxioms.ltb_spec, !FloatAxioms.leb_spec. unfold SFltb, SFleb.
  rewrite (SFcompare_antisym (Prim2SF x) (Prim2SF y)).
  destruct (SFcompare (Prim2SF x) (Prim2SF y)) as [[] |] eqn:E;
    cbn [option_map CompOpp]; try reflexivity; try discriminate.
  apply SFcompare_None in E. destruct E as [-> | ->]; discriminate.
Qed.

(** Of two numbers with [x <= y] and not [x < y], either they are the
    same or [x] is a zero. *)
Lemma leb_not_ltb_eq (x y : float) :
  (x <=? y)%float = true -> (x <? y)%float = false ->
  x = y \/ (x =? 0)%float = true.
Proof.
  rewrite FloatAxioms.ltb_spec, FloatAxioms.leb_spec, FloatAxioms.eqb_spec.
  unfold SFltb, SFleb, SFeqb.
  destruct (SFcompare (Prim2SF x) (Prim2SF y)) as [[] |] eqn:E; try discriminate.
  intros _ _. apply SFcompare_Eq in E. destruct E as [E | (s & s' & E & _)].
  - left. now apply FloatAxioms.Prim2SF_inj.
  - right. rewrite E. reflexivity.
Qed.

End FloatOrder.


(** ** The constructor in binary64 *)

Section ConstructorBinary64.
Import PrimFloat.

(** Clamping in binary64, for a range whose lower bound is not a zero: a
    NaN is clamped to the lower bound. *)
Lemma any_clip_b64 (lo hi v : float) :
  (lo <? hi)%float = true -> (lo =? 0)%float = false ->
  let s := if (hi <? v)%float then hi else if (lo <? v)%float then v else lo in
  @any_clip float ieee_idlog ltb v [lo; hi] = s /\
  (lo <=? s)%float = true /\ (s <=? hi)%float = true /\
  ((lo <=? v)%float = true -> (v <=? hi)%float = true -> s = v).
Proof.
  intros Hlh Hlo s. subst s.
  unfold any_clip, std_max, std_min. cbn [nth].
  destruct (ltb_ordered lo hi Hlh) as [Hll Hhh].
  destruct (hi <? v)%float eqn:E1.
  - rewrite Hlh. repeat split; auto using ltb_leb.
    intros _ Hvh. apply leb_not_ltb in Hvh. congruence.
  - destruct (lo <? v)%float eqn:E2.
    + destruct (ltb_ordered lo v E2) as [_ Hvv].
      repeat split; auto using ltb_leb, not_ltb_leb.
    + repeat split; auto using ltb_leb.
      intros Hlv _. destruct (leb_not_ltb_eq lo v Hlv E2) as [E | E]; congruence.
Qed.


Lemma ctxTrans_b64_row (fexp : float -> float) (snr : SNR float) (ctx : Z) :
  let bp := Z.land ctx 3 in
  let lo := nth 0 (nth (Z.to_nat bp) snrRanges_b64 []) 0%float in
  let hi := nth 1 (nth (Z.to_nat bp) snrRanges_b64 []) 0%float in
  let v := snr bp in
  let s := if (hi <? v)%float then hi else if (lo <? v)%float then v else lo in
  let coef j k := nth k (nth j (nth (Z.to_nat ctx) transProbs_b64 []) []) 0%float in
  let x j :=
    (coef j 0%nat + s * coef j 1%nat + s * s * coef j 2%nat
     + s * s * s * coef j 3%nat)%float in
  let sum := (1 + fexp (x 0%nat) + fexp (x 1%nat) + fexp (x 2%nat))%float in
  ((lo <=? s)%float = true /\ (s <=? hi)%float = true /\
   ((lo <=? v)%float = true -> (v <=? hi)%float = true -> s = v)) /\
  ctxTrans_b64 fexp snr ctx
  = [1 / sum; fexp (x 0%nat) / sum; fexp (x 1%nat) / sum; fexp (x 2%nat) / sum]%float.
Proof.
  intros bp lo hi v s coef x sum.
  assert (Hclip : @any_clip float ieee_idlog ltb v (nth (Z.to_nat bp) snrRanges_b64 [])
                  = s /\
                  (lo <=? s)%float = true /\ (s <=? hi)%float = true /\
                  ((lo <=? v)%float = true -> (v <=? hi)%float = true -> s = v)).
  { subst s lo hi. clearbody v.
    destruct (base_of_context ctx) as [E | [E | [E | E]]]; fold bp in E; rewrite E;
      cbn [Z.to_nat Pos.to_nat Pos.iter_op Nat.add nth snrRanges_b64];
      apply any_clip_b64; reflexivity. }
  destruct Hclip as [Eclip Hrange]. split; [exact Hrange |].
  unfold ctxTrans_b64, any_ctxTrans_ctor. fold bp. fold v. cbv zeta.
  rewrite Eclip. reflexivity.
Qed.


End ConstructorBinary64.

(** ** The evaluator *)

Lemma size_t_small (x : Z) : 0 <= x < 2 ^ 64 -> size_t x = x.
Proof. intros Hx. unfold size_t. now apply Z.mod_small. Qed.

Lemma int_small (x : Z) : 0 <= x <= INT_MAX -> int x = x.
Proof.
  unfold int, INT_MAX. intros Hx.
  rewrite Z.mod_small by lia. lia.
Qed.

Lemma LengthDiff_range (mut : Mutation) : -1 <= LengthDiff mut <= 1.
Proof. unfold LengthDiff. destruct (Type_ mut); lia. Qed.

Section EvaluatorFacts.
Context {D : Type} `{Double D}.
Variable P : Primitives D.

(** [LL()] written out, over any arithmetic. *)
Lemma LL_unfold (e : EvaluatorImpl D) :
  LL e = dadd (dadd (dlog (Get (beta_ e) 0 0))
                    (GetLogProdScales (beta_ e) 0 (Columns (beta_ e))))
              (dmul (dopp (dlog (dlit 20))) (dlit (read_Length e))).
Proof. reflexivity. Qed.

Lemma EncodeRead_loop_not_mismatch (read : MappedRead) (n i : nat) (acc : list Z) :
  EncodeRead_loop read i n acc <> Throw AlphaBetaMismatch.
Proof.
  revert i acc. induction n as [| n IH]; intros i acc; cbn [EncodeRead_loop].
  - discriminate.
  - destruct (PulseWidthAt read i <? 1); [discriminate |].
    destruct (TranslationTable (SeqAt read i) >? 3); [discriminate |].
    match goal with |- context [?em >? 11] => destruct (em >? 11) end;
      [discriminate | apply IH].
Qed.

Lemma Recursor_new_not_mismatch (tpl : Template D) (mr : MappedRead) (scoreDiff : D) :
  Recursor_new tpl mr scoreDiff <> Throw AlphaBetaMismatch.
Proof.
  unfold Recursor_new.
  pose proof (EncodeRead_loop_not_mismatch mr (ReadLength mr) 0 []) as Hne.
  fold (EncodeRead mr) in Hne.
  destruct (EncodeRead mr) as [em | x]; [discriminate |].
  intros E. apply Hne. now injection E as ->.
Qed.

End EvaluatorFacts.


(** C5.  The constructor fills alpha and beta with [FillAlphaBeta] before
    it returns: a returned evaluator carries the matrices that
    [FillAlphaBeta] produced from fresh ones, and its [LL()] is finite.  The
    constructor has no handler, so it throws [AlphaBetaMismatch] if and
    only if [FillAlphaBeta] itself throws it, or [FillAlphaBeta] returns and
    the [LL()] of the filled evaluator is not finite. *)
Theorem EvaluatorImpl_new_mismatch {D : Type} `{Double D} (P : Primitives D)
        (tpl : Template D) (mr : MappedRead) (scoreDiff : D) :
  let rows := Z.of_nat (ReadLength mr) + 1 in
  let cols := Length tpl + 1 in
  (EvaluatorImpl_new P tpl mr scoreDiff = Throw AlphaBetaMismatch <->
   exists recursor,
     Recursor_new tpl mr scoreDiff = Ok recursor /\
     (FillAlphaBeta P recursor (NewScaledMatrix rows cols) (NewScaledMatrix rows cols)
      = Throw AlphaBetaMismatch \/
      exists alpha beta,
        FillAlphaBeta P recursor (NewScaledMatrix rows cols) (NewScaledMatrix rows cols)
        = Ok (alpha, beta) /\
        disfinite (LL {| recursor_ := recursor; alpha_ := alpha; beta_ := beta;
                         extendBuffer_ := NewScaledMatrix rows EXTEND_BUFFER_COLUMNS |})
        = false)) /\
  (forall e, EvaluatorImpl_new P tpl mr scoreDiff = Ok e ->
     Recursor_new tpl mr scoreDiff = Ok (recursor_ e) /\
     FillAlphaBeta P (recursor_ e) (NewScaledMatrix rows cols) (NewScaledMatrix rows cols)
     = Ok (alpha_ e, beta_ e) /\
     disfinite (LL e) = true).
Proof.
  intros rows cols.
  pose proof (Recursor_new_not_mismatch tpl mr scoreDiff) as Hrec.
  assert (Htpl : forall r, Recursor_new tpl mr scoreDiff = Ok r -> tpl_ r = tpl).
  { unfold Recursor_new. intros r. destruct (EncodeRead mr); [| discriminate].
    intros E. now injection E as <-. }
  unfold EvaluatorImpl_new.
  destruct (Recursor_new tpl mr scoreDiff) as [recursor | x] eqn:Erec.
  - rewrite (Htpl recursor eq_refl). fold rows cols.
    destruct (FillAlphaBeta P recursor (NewScaledMatrix rows cols)
                            (NewScaledMatrix rows cols)) as [[alpha beta] | x] eqn:Efill.
    + destruct (disfinite (LL _)) eqn:Efin; cbn [negb]; split.
      * split; [discriminate |].
        intros (r & Er & [Ef | (a & b & Ef & Hnf)]); injection Er as <-;
          rewrite Efill in Ef; [discriminate Ef |].
        injection Ef as <- <-. congruence.
      * intros e E. injection E as <-. cbn [recursor_ alpha_ beta_]. auto.
      * split; [| reflexivity]. intros _. exists recursor. split; [reflexivity |].
        right. exists alpha, beta. auto.
      * intros e E. discriminate E.
    + split.
      * split.
        -- intros E. injection E as ->. exists recursor. auto.
        -- intros (r & Er & [Ef | (a & b & Ef & _)]); injection Er as <-;
             rewrite Efill in Ef; [now injection Ef as -> | discriminate Ef].
      * intros e E. discriminate E.
  - split.
    + split; [intros E; exfalso; apply Hrec; now injection E as -> |].
      intros (r & Er & _). discriminate Er.
    + intros e E. discriminate E.
Qed.


Section VirtualMutation.
Context {D : Type} `{Double D}.
Variable P : Primitives D.

(** [Reset] undoes [Mutate] on a template with no mutation pending. *)
Lemma Reset_Mutate (mut : Mutation) (tpl : Template D) :
  pending tpl = None -> Reset (Mutate mut tpl) = tpl.
Proof. destruct tpl as [ps pd]. cbn. intros ->. reflexivity. Qed.

Lemma on_tpl_Reset_Mutate (mut : Mutation) (r : Recursor D) :
  pending (tpl_ r) = None -> on_tpl Reset (on_tpl (Mutate mut) r) = r.
Proof.
  destruct r as [tpl rd em sd]. unfold on_tpl. cbn [tpl_ read_ emissions_ scoreDiff_].
  intros Hp. now rewrite Reset_Mutate.
Qed.

Lemma Mutate_pending (mut : Mutation) (tpl : Template D) :
  pending tpl = None -> Mutate mut tpl <> tpl.
Proof. destruct tpl as [ps pd]. cbn. intros -> E. discriminate E. Qed.

(** Where [LL(mut)] leaves the evaluator: alpha and beta are the ones it
    started with, and the recursor carries the template with the virtual
    mutation reset after a return and still applied after a throw. *)
Lemma LL_mut_state (e : EvaluatorImpl D) (mut : Mutation) :
  alpha_ (snd (LL_mut P mut e)) = alpha_ e /\
  beta_ (snd (LL_mut P mut e)) = beta_ e /\
  match fst (LL_mut P mut e) with
  | Ok _ => recursor_ (snd (LL_mut P mut e))
            = on_tpl Reset (on_tpl (Mutate mut) (recursor_ e))
  | Throw _ => recursor_ (snd (LL_mut P mut e)) = on_tpl (Mutate mut) (recursor_ e)
  end.
Proof.
  cbv beta iota zeta delta [LL_mut bind with_tpl get call_ExtendAlpha
    call_ExtendBeta call_LinkAlphaBeta lift set_extendBuffer ret beta_
    recursor_ alpha_ extendBuffer_].
  destruct (Start mut <? 3);
    destruct (size_t (End_ mut + 3) >? Columns (let (_, _, b, _) := e in b));
    cbv beta iota zeta delta [negb andb];
    repeat (match goal with
            | |- context [match ?x with Ok _ => _ | Throw _ => _ end] =>
                destruct x; cbv beta iota zeta delta [fst snd]
            end);
    auto.
Qed.

End VirtualMutation.

(** C4 (as amended).  A call of [LL(mut)] on an evaluator whose template has
    no virtual mutation pending never writes alpha or beta; when it returns,
    the recursor, and with it the template, is as before the call, so that
    only the extend buffer may differ; when it ends by an exception of one
    of the recursor's operations, [Reset] has not run and the template
    still carries the virtual mutation. *)
Theorem LL_mut_frame {D : Type} `{Double D} (P : Primitives D)
        (e : EvaluatorImpl D) (mut : Mutation) :
  pending (tpl_ (recursor_ e)) = None ->
  alpha_ (snd (LL_mut P mut e)) = alpha_ e /\
  beta_ (snd (LL_mut P mut e)) = beta_ e /\
  (forall score, fst (LL_mut P mut e) = Ok score ->
     snd (LL_mut P mut e)
     = {| recursor_ := recursor_ e; alpha_ := alpha_ e; beta_ := beta_ e;
          extendBuffer_ := extendBuffer_ (snd (LL_mut P mut e)) |} /\
     LL_mut_restores_template P e mut) /\
  (forall x, fst (LL_mut P mut e) = Throw x ->
     tpl_ (recursor_ (snd (LL_mut P mut e))) = Mutate mut (tpl_ (recursor_ e)) /\
     ~ LL_mut_restores_template P e mut).
Proof.
  intros Hpending. unfold LL_mut_restores_template.
  destruct (LL_mut_state P e mut) as (Ha & Hb & Hr).
  split; [exact Ha |]. split; [exact Hb |]. split.
  - intros score E. rewrite E in Hr.
    rewrite on_tpl_Reset_Mutate in Hr by exact Hpending.
    split; [| now rewrite Hr].
    destruct (snd (LL_mut P mut e)) as [r a b ext].
    cbn [recursor_ alpha_ beta_ extendBuffer_] in *. now subst.
  - intros x E. rewrite E in Hr. rewrite Hr. cbn [on_tpl tpl_].
    split; [reflexivity | now apply Mutate_pending].
Qed.

(** C4 (counterexample).  With an [ExtendAlpha] that throws, [LL(mut)] for
    the substitution at 4 on "ACGTACGT" ends by that exception and leaves
    the virtual mutation on the template. *)
Lemma LL_mut_throw_keeps_mutation :
  pending (tpl_ (recursor_ evaluator_ACGTACGT)) = None /\
  fst (LL_mut failing_primitives mut_SUBSTITUTION_4 evaluator_ACGTACGT)
  = Throw bad_alloc /\
  ~ LL_mut_restores_template failing_primitives evaluator_ACGTACGT mut_SUBSTITUTION_4.
Proof.
  split; [reflexivity |]. split; [reflexivity |].
  unfold LL_mut_restores_template.
  assert (E : pending (tpl_ (recursor_ (snd (LL_mut failing_primitives mut_SUBSTITUTION_4
                                                   evaluator_ACGTACGT))))
              = Some mut_SUBSTITUTION_4) by reflexivity.
  intros Hsame. rewrite Hsame in E. discriminate E.
Qed.

Lemma LL_mut_frame_witness :
  pending (tpl_ (recursor_ evaluator_ACGTACGT)) = None /\
  alpha_ (snd (LL_mut (idle_primitives R) mut_SUBSTITUTION_4 evaluator_ACGTACGT))
  = alpha_ evaluator_ACGTACGT /\
  beta_ (snd (LL_mut (idle_primitives R) mut_SUBSTITUTION_4 evaluator_ACGTACGT))
  = beta_ evaluator_ACGTACGT.
Proof.
  split; [reflexivity |].
  pose proof (LL_mut_frame (idle_primitives R) evaluator_ACGTACGT mut_SUBSTITUTION_4
                           eq_refl) as (Ha & Hb & _).
  split; [exact Ha | exact Hb].
Defined.


Lemma EvaluatorImpl_new_mismatch_witness :
  PrimFloat.is_finite
    (@LL _ ieee_log
         {| recursor_ := {| tpl_ := tpl_float; read_ := read_ACGTACGT;
                            emissions_ := [0; 1; 2; 3; 0; 1; 2; 3];
                            scoreDiff_ := scoreDiff_float |};
            alpha_ := @NewScaledMatrix _ ieee_log 9 9;
            beta_ := @NewScaledMatrix _ ieee_log 9 9;
            extendBuffer_ := @NewScaledMatrix _ ieee_log 9 8 |}) = false /\
  @EvaluatorImpl_new _ ieee_log idle_float tpl_float read_ACGTACGT scoreDiff_float
  = Throw AlphaBetaMismatch.
Proof.
  split; [reflexivity |].
  apply (proj1 (@EvaluatorImpl_new_mismatch _ ieee_log idle_float tpl_float
                                            read_ACGTACGT scoreDiff_float)).
  eexists. split; [reflexivity |].
  right. eexists. eexists. split; reflexivity.
Defined.

(** C5 (counterexample).  With a [FillAlphaBeta] that throws
    [AlphaBetaMismatch] the constructor throws it, and no evaluator has
    been filled whose [LL()] could be tested. *)
Lemma EvaluatorImpl_new_mismatch_from_fill :
  @EvaluatorImpl_new _ ieee_log mismatching_primitives tpl_float read_ACGTACGT
                     scoreDiff_float
  = Throw AlphaBetaMismatch /\
  ~ @mismatch_iff_LL_not_finite _ ieee_log mismatching_primitives tpl_float
                                read_ACGTACGT scoreDiff_float.
Proof.
  split; [reflexivity |].
  intros [Hthrow _].
  destruct (Hthrow eq_refl) as (recursor & alpha & beta & _ & Efill & _).
  discriminate Efill.
Qed.

Lemma Populate_positions_witness :
  Forall (fun c => In c ACGT) (list_ascii_of_string "ACGT") /\
  exists v,
    Populate model_marked "ACGT" = Ok v /\ List.length v = 4%nat /\
    (exists p, nth_error v 1 = Some p /\ Base p = "C"%char /\ Idx p = 1 /\
               Match p = 60%R /\ Branch p = 61%R /\ Stick p = 62%R /\
               Deletion p = 63%R) /\
    (exists p, nth_error v 3 = Some p /\ Base p = "T"%char /\ Idx p = 3 /\
               Match p = 1%R /\ Branch p = 0%R /\ Stick p = 0%R /\
               Deletion p = 0%R).
Proof.
  assert (Hvalid : Forall (fun c => In c ACGT) (list_ascii_of_string "ACGT"))
    by (simpl; repeat constructor; simpl; auto).
  split; [exact Hvalid |].
  destruct (Populate_positions model_marked "ACGT" Hvalid)
    as [(v & Ev & Hlen & Hmid & Hlast) _].
  exists v. split; [exact Ev |]. split; [exact Hlen |]. split.
  - exact (Hmid 2%nat ltac:(simpl; lia)).
  - exact (Hlast ltac:(discriminate)).
Defined.

Section ConstructorExample.
Import PrimFloat.


End ConstructorExample.

(** ** [ZScore] in binary64 *)

Section ZScoreIEEE.
Import PrimFloat SpecFloat FloatOps.

Lemma Prim2SF_infinity : Prim2SF infinity = S754_infinity false.
Proof. reflexivity. Qed.

Lemma not_finite_of_SF (z : float) :
  (Prim2SF z = S754_nan \/ exists s, Prim2SF z = S754_infinity s) ->
  is_finite z = false.
Proof.
  intros Hz. unfold is_finite, is_nan, is_infinity.
  rewrite !FloatAxioms.eqb_spec, FloatAxioms.abs_spec, Prim2SF_infinity.
  destruct Hz as [-> | [s ->]]; [reflexivity | destruct s; reflexivity].
Qed.

(** A quotient by the square root of a zero or negative number is an
    infinity or a NaN. *)
Lemma div_sqrt_nonpositive (x v : float) :
  (v <=? 0)%float = true -> is_finite (x / sqrt v) = false.
Proof.
  intros Hv. apply not_finite_of_SF.
  rewrite FloatAxioms.div_spec, FloatAxioms.sqrt_spec.
  rewrite FloatAxioms.leb_spec in Hv.
  change (Prim2SF 0) with (S754_zero false) in Hv.
  unfold FloatAxioms.SF64div, FloatAxioms.SF64sqrt.
  destruct (Prim2SF v) as [sv | sv | | sv mv ev]; cbn in Hv |- *.
  - destruct (Prim2SF x) as [sx | sx | | sx mx ex]; cbn; eauto.
  - destruct sv; [| discriminate]. destruct (Prim2SF x); cbn; eauto.
  - discriminate.
  - destruct sv; [| discriminate]. destruct (Prim2SF x); cbn; eauto.
Qed.

End ZScoreIEEE.

(** C10.  [ZScore()] is [(LL() - mean) / sqrt(variance)] with no test of
    the variance: in binary64, whenever [NormalParameters()] gives a
    variance that is zero or negative, [ZScore()] returns a value that is
    not finite (an infinity or a NaN); it has no way to throw. *)
Theorem ZScore_not_finite (flog : PrimFloat.float -> PrimFloat.float)
        (P : Primitives PrimFloat.float) (e : EvaluatorImpl PrimFloat.float) :
  PrimFloat.leb (snd (NormalParameters P e)) PrimFloat.zero = true ->
  @ZScore _ (ieee_Double flog) P e
  = PrimFloat.div (PrimFloat.sub (@LL _ (ieee_Double flog) e) (fst (NormalParameters P e)))
                  (PrimFloat.sqrt (snd (NormalParameters P e))) /\
  PrimFloat.is_finite (@ZScore _ (ieee_Double flog) P e) = false.
Proof.
  intros Hvar. unfold ZScore.
  destruct (NormalParameters P e) as [mean var]. cbn [fst snd] in *.
  split; [reflexivity |].
  cbn [ddiv dsub dsqrt ieee_Double].
  now apply div_sqrt_nonpositive.
Qed.

Lemma ZScore_not_finite_witness :
  PrimFloat.leb (snd (NormalParameters (@idle_primitives _ ieee_idlog) evaluator_float))
                PrimFloat.zero = true /\
  PrimFloat.is_finite (@ZScore _ ieee_idlog (@idle_primitives _ ieee_idlog) evaluator_float)
  = false.
Proof.
  assert (Hvar : PrimFloat.leb
                   (snd (NormalParameters (@idle_primitives _ ieee_idlog) evaluator_float))
                   PrimFloat.zero = true) by reflexivity.
  split; [exact Hvar |].
  exact (proj2 (ZScore_not_finite (fun x => x) (@idle_primitives _ ieee_idlog)
                                  evaluator_float Hvar)).
Defined.

(** * Further properties of the code *)

(** ** [EncodeRead] *)

Section EncodeReadMore.
Variable read : MappedRead.

Lemma EncodeRead_loop_Ok_passes (n i : nat) (acc v : list Z) :
  EncodeRead_loop read i n acc = Ok v ->
  forall k, (i <= k < i + n)%nat -> passes read k /\ 1 <= PulseWidthAt read k.
Proof.
  revert i acc. induction n as [| n IH]; intros i acc E k Hk; [lia |].
  cbn [EncodeRead_loop] in E.
  destruct (PulseWidthAt read i <? 1) eqn:E1; [discriminate E |].
  destruct (TranslationTable (SeqAt read i) >? 3) eqn:E2; [discriminate E |].
  match type of E with context [?em >? 11] => destruct (em >? 11) end;
    [discriminate E |].
  destruct (Nat.eq_dec k i) as [-> | Hne].
  - apply Z.ltb_ge in E1. rewrite Z.gtb_ltb in E2. apply Z.ltb_ge in E2.
    split; [split; [lia | apply TranslationTable_ACGT; lia] | lia].
  - apply (IH _ _ E). lia.
Qed.

Lemma EncodeRead_loop_Ok_encoded (n i : nat) (acc v : list Z) :
  EncodeRead_loop read i n acc = Ok v ->
  v = acc ++ map (fun k => outcome (PulseWidthAt read k) (SeqAt read k)) (seq i n).
Proof.
  revert i acc. induction n as [| n IH]; intros i acc E;
    cbn [EncodeRead_loop seq map] in *.
  - injection E as <-. now rewrite app_nil_r.
  - destruct (PulseWidthAt read i <? 1) eqn:E1; [discriminate E |].
    destruct (TranslationTable (SeqAt read i) >? 3) eqn:E2; [discriminate E |].
    apply Z.ltb_ge in E1. rewrite Z.gtb_ltb in E2. apply Z.ltb_ge in E2.
    pose proof (TranslationTable_range (SeqAt read i)) as Hr.
    destruct (emission_code (PulseWidthAt read i) (TranslationTable (SeqAt read i)))
      as [Eem Hem]; [lia | lia |].
    rewrite Eem in E.
    replace (_ >? 11) with false in E
      by (symmetry; rewrite Z.gtb_ltb; apply Z.ltb_ge; lia).
    rewrite (IH _ _ E). rewrite <- app_assoc. reflexivity.
Qed.

Lemma string_length_list (s : string) :
  String.length s = List.length (list_ascii_of_string s).
Proof. induction s as [| c s IH]; simpl; [reflexivity | now rewrite IH]. Qed.

Lemma EncodeRead_loop_throws (n i : nat) (acc : list Z) (x : exn) :
  EncodeRead_loop read i n acc = Throw x ->
  x = InvalidPulseWidth \/ x = InvalidBase.
Proof.
  revert i acc. induction n as [| n IH]; intros i acc E; cbn [EncodeRead_loop] in E.
  - discriminate E.
  - destruct (PulseWidthAt read i <? 1) eqn:E1; [left; now injection E as <- |].
    destruct (TranslationTable (SeqAt read i) >? 3) eqn:E2;
      [right; now injection E as <- |].
    apply Z.ltb_ge in E1. rewrite Z.gtb_ltb in E2. apply Z.ltb_ge in E2.
    pose proof (TranslationTable_range (SeqAt read i)) as Hr.
    destruct (emission_code (PulseWidthAt read i) (TranslationTable (SeqAt read i)))
      as [Eem Hem]; [lia | lia |].
    rewrite Eem in E.
    replace (_ >? 11) with false in E
      by (symmetry; rewrite Z.gtb_ltb; apply Z.ltb_ge; lia).
    apply (IH _ _ E).
Qed.

End EncodeReadMore.

(** X1.  [EncodeRead] returns a vector exactly when every position of the
    read has a non-zero pulse width and a character in {A,C,G,T}; the vector
    is then the position-wise encoding; and the only exceptions it throws
    are the invalid-pulse-width and the invalid-character ones. *)
Theorem EncodeRead_succeeds_iff (read : MappedRead) :
  wf_read read ->
  ((exists v, EncodeRead read = Ok v) <->
   (forall i, (i < ReadLength read)%nat -> passes read i)) /\
  (forall v, EncodeRead read = Ok v -> v = encoded read) /\
  (forall x, EncodeRead read = Throw x -> x = InvalidPulseWidth \/ x = InvalidBase).
Proof.
  intros Hwf.
  assert (Hok : forall v, EncodeRead read = Ok v ->
                          forall i, (i < ReadLength read)%nat -> passes read i).
  { intros v E i Hi. apply (EncodeRead_loop_Ok_passes read _ _ _ _ E). lia. }
  assert (Hall : (forall i, (i < ReadLength read)%nat -> passes read i) ->
                 EncodeRead read = Ok (encoded read)).
  { intros Hp. unfold EncodeRead. rewrite (EncodeRead_loop_passes read Hwf).
    - reflexivity.
    - intros k Hk. apply Hp. lia. }
  split; [split |]; [| | split].
  - intros [v E]. exact (Hok v E).
  - intros Hp. exists (encoded read). exact (Hall Hp).
  - intros v E. rewrite (Hall (Hok v E)) in E. now injection E as <-.
  - intros x E. exact (EncodeRead_loop_throws read _ _ _ x E).
Qed.

Lemma EncodeRead_succeeds_iff_witness :
  wf_read read_NA /\
  forall x, EncodeRead read_NA = Throw x -> x = InvalidPulseWidth \/ x = InvalidBase.
Proof.
  assert (Hwf : wf_read read_NA).
  { split; [reflexivity |]. unfold read_NA; simpl. repeat constructor; lia. }
  split; [exact Hwf |].
  exact (proj2 (proj2 (EncodeRead_succeeds_iff read_NA Hwf))).
Defined.

Lemma outcome_decode (pw : Z) (c : ascii) :
  1 <= pw -> In c ACGT ->
  outcome_base (outcome pw c) = c /\ outcome_pw (outcome pw c) = Z.min (pw - 1) 2.
Proof.
  intros Hpw Hc. unfold outcome, outcome_base, outcome_pw.
  assert (Hm : Z.min (pw - 1) 2 = 0 \/ Z.min (pw - 1) 2 = 1 \/ Z.min (pw - 1) 2 = 2) by lia.
  destruct Hc as [<- | [<- | [<- | [<- | []]]]];
    destruct Hm as [-> | [-> | ->]]; split; reflexivity.
Qed.

(** X2.  The encoding can be read back: in a vector returned by
    [EncodeRead], the low two bits of element [i] give the base of the read
    at [i] and the remaining bits give [min(pw - 1, 2)], so that the base
    sequence of the read is recovered from the vector. *)
Theorem EncodeRead_decode (read : MappedRead) (v : list Z) :
  EncodeRead read = Ok v ->
  (forall i, (i < ReadLength read)%nat ->
     outcome_base (nth i v 0) = SeqAt read i /\
     outcome_pw (nth i v 0) = Z.min (PulseWidthAt read i - 1) 2) /\
  map outcome_base v = list_ascii_of_string (Seq read).
Proof.
  intros E.
  assert (Hp : forall i, (i < ReadLength read)%nat ->
                         passes read i /\ 1 <= PulseWidthAt read i).
  { intros i Hi. apply (EncodeRead_loop_Ok_passes read _ _ _ _ E). lia. }
  assert (Ev : v = encoded read) by exact (EncodeRead_loop_Ok_encoded read _ _ _ _ E).
  subst v.
  assert (Hdec : forall i, (i < ReadLength read)%nat ->
            outcome_base (outcome (PulseWidthAt read i) (SeqAt read i)) = SeqAt read i /\
            outcome_pw (outcome (PulseWidthAt read i) (SeqAt read i))
            = Z.min (PulseWidthAt read i - 1) 2).
  { intros i Hi. destruct (Hp i Hi) as [[_ Hc] Hpw]. now apply outcome_decode. }
  split.
  - intros i Hi. rewrite (encoded_nth read i Hi). apply Hdec, Hi.
  - apply nth_ext with (d := Ascii.zero) (d' := Ascii.zero).
    + rewrite length_map, encoded_length. apply string_length_list.
    + intros n Hn. rewrite length_map, encoded_length in Hn.
      rewrite (nth_indep _ _ (outcome_base 0)) by (now rewrite length_map, encoded_length).
      rewrite (map_nth outcome_base), (encoded_nth read n Hn).
      apply (Hdec n Hn).
Qed.

Lemma EncodeRead_decode_witness :
  EncodeRead read_AAAAAA = Ok [0; 4; 8; 0; 0; 0] /\
  map outcome_base [0; 4; 8; 0; 0; 0] = list_ascii_of_string (Seq read_AAAAAA).
Proof.
  assert (E : EncodeRead read_AAAAAA = Ok [0; 4; 8; 0; 0; 0]) by reflexivity.
  split; [exact E |].
  exact (proj2 (EncodeRead_decode read_AAAAAA _ E)).
Defined.

Lemma PulseWidthAt_cap (read : MappedRead) (i : nat) :
  PulseWidthAt (cap_PulseWidth read) i = Z.min 3 (PulseWidthAt read i).
Proof.
  unfold PulseWidthAt, cap_PulseWidth. cbn [PulseWidth].
  change 0 with (Z.min 3 0) at 1. apply map_nth.
Qed.

Lemma EncodeRead_loop_cap (read : MappedRead) (n i : nat) (acc : list Z) :
  EncodeRead_loop (cap_PulseWidth read) i n acc = EncodeRead_loop read i n acc.
Proof.
  revert i acc. induction n as [| n IH]; intros i acc; cbn [EncodeRead_loop];
    [reflexivity |].
  rewrite PulseWidthAt_cap.
  change (SeqAt (cap_PulseWidth read) i) with (SeqAt read i).
  replace (Z.min 3 (PulseWidthAt read i) <? 1) with (PulseWidthAt read i <? 1)
    by (destruct (PulseWidthAt read i <? 1) eqn:E; symmetry;
        [apply Z.ltb_lt in E; apply Z.ltb_lt | apply Z.ltb_ge in E; apply Z.ltb_ge];
        lia).
  replace (Z.min 2 (Z.min 3 (PulseWidthAt read i) - 1))
    with (Z.min 2 (PulseWidthAt read i - 1)) by lia.
  now rewrite IH.
Qed.

(** X3.  Pulse widths saturate at 3: capping every pulse width of a read at
    3 changes neither the vector that [EncodeRead] returns nor the exception
    that it throws. *)
Theorem EncodeRead_cap_PulseWidth (read : MappedRead) :
  EncodeRead (cap_PulseWidth read) = EncodeRead read.
Proof. unfold EncodeRead. apply EncodeRead_loop_cap. Qed.

Section EncodeReadCompose.

Lemma EncodeRead_loop_acc (read : MappedRead) (n i : nat) (acc : list Z) :
  EncodeRead_loop read i n acc
  = match EncodeRead_loop read i n [] with
    | Ok v => Ok (acc ++ v)
    | Throw x => Throw x
    end.
Proof.
  revert i acc. induction n as [| n IH]; intros i acc; cbn [EncodeRead_loop].
  - now rewrite app_nil_r.
  - destruct (PulseWidthAt read i <? 1); [reflexivity |].
    destruct (TranslationTable (SeqAt read i) >? 3); [reflexivity |].
    match goal with |- context [?em >? 11] => destruct (em >? 11) end;
      [reflexivity |].
    rewrite (IH (S i) (acc ++ _)), (IH (S i) ([] ++ _)).
    destruct (EncodeRead_loop read (S i) n []); [| reflexivity].
    now rewrite <- app_assoc.
Qed.

Lemma EncodeRead_loop_shift (r r' : MappedRead) (n i i' : nat) (acc : list Z) :
  (forall k, (k < n)%nat ->
     PulseWidthAt r (i + k) = PulseWidthAt r' (i' + k) /\
     SeqAt r (i + k) = SeqAt r' (i' + k)) ->
  EncodeRead_loop r i n acc = EncodeRead_loop r' i' n acc.
Proof.
  revert i i' acc. induction n as [| n IH]; intros i i' acc Hsame;
    cbn [EncodeRead_loop]; [reflexivity |].
  destruct (Hsame 0%nat ltac:(lia)) as [Epw Eseq].
  rewrite !Nat.add_0_r in Epw, Eseq. rewrite Epw, Eseq.
  destruct (PulseWidthAt r' i' <? 1); [reflexivity |].
  destruct (TranslationTable (SeqAt r' i') >? 3); [reflexivity |].
  match goal with |- context [?em >? 11] => destruct (em >? 11) end;
    [reflexivity |].
  apply IH. intros k Hk.
  specialize (Hsame (S k) ltac:(lia)).
  now rewrite !Nat.add_succ_r in Hsame.
Qed.

Lemma EncodeRead_loop_split (read : MappedRead) (n1 n2 i : nat) (acc : list Z) :
  EncodeRead_loop read i (n1 + n2) acc
  = match EncodeRead_loop read i n1 acc with
    | Ok v => EncodeRead_loop read (i + n1) n2 v
    | Throw x => Throw x
    end.
Proof.
  revert i acc. induction n1 as [| n1 IH]; intros i acc;
    cbn [EncodeRead_loop Nat.add].
  - now rewrite Nat.add_0_r.
  - destruct (PulseWidthAt read i <? 1); [reflexivity |].
    destruct (TranslationTable (SeqAt read i) >? 3); [reflexivity |].
    match goal with |- context [?em >? 11] => destruct (em >? 11) end;
      [reflexivity |].
    rewrite IH. now rewrite Nat.add_succ_r.
Qed.

Lemma list_ascii_of_string_app (s1 s2 : string) :
  list_ascii_of_string (s1 ++ s2) = list_ascii_of_string s1 ++ list_ascii_of_string s2.
Proof. induction s1 as [| c s1 IH]; simpl; [reflexivity | now rewrite IH]. Qed.

End EncodeReadCompose.

(** X4.  [EncodeRead] works position by position: the encoding of a read
    followed by another is the encoding of the first followed by the
    encoding of the second, and an exception of the first part takes
    precedence over one of the second. *)
Theorem EncodeRead_app (r1 r2 : MappedRead) :
  List.length (PulseWidth r1) = ReadLength r1 ->
  EncodeRead (read_app r1 r2)
  = match EncodeRead r1 with
    | Throw x => Throw x
    | Ok v1 =>
        match EncodeRead r2 with
        | Throw x => Throw x
        | Ok v2 => Ok (v1 ++ v2)
        end
    end.
Proof.
  intros Hlen. unfold EncodeRead.
  assert (HL1 : List.length (list_ascii_of_string (Seq r1)) = ReadLength r1)
    by (symmetry; apply string_length_list).
  assert (HN : ReadLength (read_app r1 r2) = (ReadLength r1 + ReadLength r2)%nat).
  { unfold ReadLength, read_app. cbn [Seq].
    rewrite !string_length_list, list_ascii_of_string_app. apply length_app. }
  rewrite HN, EncodeRead_loop_split. cbn [Nat.add].
  rewrite (EncodeRead_loop_shift (read_app r1 r2) r1 (ReadLength r1) 0 0).
  - destruct (EncodeRead_loop r1 0 (ReadLength r1) []) as [v1 | x]; [| reflexivity].
    rewrite (EncodeRead_loop_shift (read_app r1 r2) r2 (ReadLength r2) (ReadLength r1) 0).
    + apply EncodeRead_loop_acc.
    + intros k Hk. unfold PulseWidthAt, SeqAt, read_app. cbn [PulseWidth Seq].
      rewrite list_ascii_of_string_app, !app_nth2 by lia.
      rewrite Hlen, HL1.
      replace (ReadLength r1 + k - ReadLength r1)%nat with (0 + k)%nat by lia.
      split; reflexivity.
  - intros k Hk. unfold PulseWidthAt, SeqAt, read_app. cbn [PulseWidth Seq Nat.add].
    rewrite list_ascii_of_string_app, !app_nth1 by lia.
    split; reflexivity.
Qed.

Lemma EncodeRead_app_witness :
  List.length (PulseWidth read_AAAAAA) = ReadLength read_AAAAAA /\
  EncodeRead (read_app read_AAAAAA read_AAAAAA)
  = Ok ([0; 4; 8; 0; 0; 0] ++ [0; 4; 8; 0; 0; 0]).
Proof.
  assert (Hlen : List.length (PulseWidth read_AAAAAA) = ReadLength read_AAAAAA)
    by reflexivity.
  split; [exact Hlen |].
  rewrite (EncodeRead_app read_AAAAAA read_AAAAAA Hlen). reflexivity.
Defined.

(** ** [Populate] *)

Lemma invalid_base_check (c : ascii) :
  ~ In c ACGT -> (TranslationTable c >? 3) = true.
Proof.
  intros Hc. destruct (TranslationTable c >? 3) eqn:E; [reflexivity |].
  exfalso. apply Hc, TranslationTable_ACGT.
  rewrite Z.gtb_ltb in E. apply Z.ltb_ge in E. exact E.
Qed.

Lemma ACGT_dec (c : ascii) : {In c ACGT} + {~ In c ACGT}.
Proof. apply in_dec, ascii_dec. Defined.

Section PopulateErrors.
Context {D : Type} `{Double D}.
Variable m : S_P1C1v2_Model D.

Lemma Populate_loop_invalid (rest : list ascii) (prevc : ascii) (prev : Z)
      (result : list (TemplatePosition D)) :
  ~ Forall (fun c => In c ACGT) rest ->
  Populate_loop m prevc prev rest result = Throw InvalidTemplateBase.
Proof.
  revert prevc prev result.
  induction rest as [| c rest IH]; intros prevc prev result Hbad;
    cbn [Populate_loop].
  - exfalso. apply Hbad. constructor.
  - destruct (ACGT_dec c) as [Hc | Hc].
    + rewrite (valid_base_check c Hc). apply IH.
      intros Hrest. apply Hbad. now constructor.
    + now rewrite (invalid_base_check c Hc).
Qed.

Lemma Populate_invalid (tpl : string) :
  ~ Forall (fun c => In c ACGT) (list_ascii_of_string tpl) ->
  Populate m tpl = Throw InvalidTemplateBase.
Proof.
  unfold Populate. intros Hbad.
  destruct (list_ascii_of_string tpl) as [| c0 rest].
  - exfalso. apply Hbad. constructor.
  - destruct (ACGT_dec c0) as [Hc | Hc].
    + rewrite (valid_base_check c0 Hc). apply Populate_loop_invalid.
      intros Hrest. apply Hbad. now constructor.
    + now rewrite (invalid_base_check c0 Hc).
Qed.

Lemma Populate_Ok_valid (tpl : string) (v : list (TemplatePosition D)) :
  Populate m tpl = Ok v ->
  Forall (fun c => In c ACGT) (list_ascii_of_string tpl) /\
  v = populated m (list_ascii_of_string tpl).
Proof.
  intros E.
  destruct (Forall_dec (fun c => In c ACGT) ACGT_dec (list_ascii_of_string tpl))
    as [Hvalid | Hbad].
  - split; [exact Hvalid |].
    rewrite (Populate_populated m tpl Hvalid) in E. now injection E as <-.
  - rewrite (Populate_invalid tpl Hbad) in E. discriminate E.
Qed.

Lemma populated_Base (tpl : list ascii) : map Base (populated m tpl) = tpl.
Proof.
  unfold populated. rewrite map_map.
  apply nth_ext with (d := Ascii.zero) (d' := Ascii.zero).
  - now rewrite length_map, length_seq.
  - intros n Hn. rewrite length_map, length_seq in Hn.
    rewrite (nth_indep _ _ (Base (position_at m tpl 0)))
      by (now rewrite length_map, length_seq).
    rewrite (map_nth (fun i => Base (position_at m tpl i))).
    rewrite seq_nth by exact Hn. cbn [Nat.add].
    unfold position_at. now destruct (S n <? List.length tpl)%nat.
Qed.

End PopulateErrors.

(** X5.  [Populate] throws exactly when the template string has a
    character outside {A,C,G,T}, wherever it stands, and then it throws
    [std::invalid_argument("invalid character in template!")]; it throws
    nothing else, and the model's tables play no part in that. *)
Theorem Populate_throws_iff {D : Type} `{Double D}
        (m : S_P1C1v2_Model D) (tpl : string) :
  (Populate m tpl = Throw InvalidTemplateBase <->
   exists c, In c (list_ascii_of_string tpl) /\ ~ In c ACGT) /\
  (forall x, Populate m tpl = Throw x -> x = InvalidTemplateBase).
Proof.
  destruct (Forall_dec (fun c => In c ACGT) ACGT_dec (list_ascii_of_string tpl))
    as [Hvalid | Hbad].
  - rewrite (Populate_populated m tpl Hvalid). split; [split |].
    + discriminate.
    + intros (c & Hin & Hc). exfalso. apply Hc.
      rewrite Forall_forall in Hvalid. now apply Hvalid.
    + discriminate.
  - rewrite (Populate_invalid m tpl Hbad). split; [split |].
    + intros _. apply Exists_exists. apply neg_Forall_Exists_neg; [| exact Hbad].
      intros c. destruct (ACGT_dec c); [now left | now right].
    + reflexivity.
    + intros x E. now injection E as <-.
Qed.

(** X6.  The positions that [Populate] returns spell the template: their
    [Base] fields, in order, are the characters of the template string, and
    each [Idx] is the encoding 0..3 of its [Base]. *)
Theorem Populate_spells_template {D : Type} `{Double D}
        (m : S_P1C1v2_Model D) (tpl : string) (v : list (TemplatePosition D)) :
  Populate m tpl = Ok v ->
  string_of_list_ascii (map Base v) = tpl /\
  Forall (fun p => Idx p = TranslationTable (Base p) /\ 0 <= Idx p <= 3) v.
Proof.
  intros E. destruct (Populate_Ok_valid m tpl v E) as [Hvalid ->].
  split.
  - rewrite populated_Base. apply string_of_list_ascii_of_string.
  - rewrite Forall_forall in Hvalid |- *. intros p Hp.
    unfold populated in Hp. apply in_map_iff in Hp. destruct Hp as (i & <- & Hi).
    apply in_seq in Hi.
    assert (Hc : In (nth i (list_ascii_of_string tpl) Ascii.zero) ACGT)
      by (apply Hvalid, nth_In; lia).
    apply TranslationTable_ACGT in Hc.
    pose proof (TranslationTable_range (nth i (list_ascii_of_string tpl) Ascii.zero)).
    unfold position_at.
    destruct (S i <? List.length (list_ascii_of_string tpl))%nat;
      cbn [Idx Base]; (split; [reflexivity | lia]).
Qed.

Lemma Populate_spells_template_witness :
  Populate model_snr8 "ACGT" = Ok (populated model_snr8 (list_ascii_of_string "ACGT")) /\
  string_of_list_ascii (map Base (populated model_snr8 (list_ascii_of_string "ACGT")))
  = "ACGT"%string.
Proof.
  assert (E : Populate model_snr8 "ACGT"
              = Ok (populated model_snr8 (list_ascii_of_string "ACGT")))
    by reflexivity.
  split; [exact E |].
  exact (proj1 (Populate_spells_template model_snr8 "ACGT" _ E)).
Defined.

(** ** The transition table and [Populate] together *)

Lemma context_range (prev curr : Z) :
  0 <= prev <= 3 -> 0 <= curr <= 3 ->
  0 <= context prev curr < 16 /\
  Z.land (context prev curr) 3 = curr /\
  Z.shiftr (context prev curr) 2 = prev.
Proof.
  intros Hp Hc.
  assert (Ep : prev = 0 \/ prev = 1 \/ prev = 2 \/ prev = 3) by lia.
  assert (Ec : curr = 0 \/ curr = 1 \/ curr = 2 \/ curr = 3) by lia.
  destruct Ep as [-> | [-> | [-> | ->]]]; destruct Ec as [-> | [-> | [-> | ->]]];
    vm_compute; intuition congruence.
Qed.

Local Open Scope R_scope.

Lemma clip_cases (val : R) (range : list R) :
  let lo := nth 0 range 0 in
  let hi := nth 1 range 0 in
  (hi < lo /\ clip val range = lo) \/
  (lo <= hi /\ val <= lo /\ clip val range = lo) \/
  (lo <= hi /\ lo <= val <= hi /\ clip val range = val) \/
  (lo <= hi /\ hi <= val /\ clip val range = hi).
Proof.
  intros lo hi. unfold clip. fold lo hi. unfold Rmax, Rmin.
  destruct (Rle_dec val hi); destruct (Rle_dec lo _);
    destruct (Rle_dec lo hi); destruct (Rle_dec val lo);
    solve [left; lra | right; left; lra | right; right; left; lra
           | right; right; right; lra].
Qed.

Lemma clip_idempotent (val : R) (range : list R) :
  clip (clip val range) range = clip val range.
Proof.
  destruct (clip_cases val range) as [H1 | [H1 | [H1 | H1]]];
    destruct (clip_cases (clip val range) range) as [H2 | [H2 | [H2 | H2]]];
    lra.
Qed.

Lemma clip_monotone (val val' : R) (range : list R) :
  val <= val' -> clip val range <= clip val' range.
Proof.
  intros Hle.
  destruct (clip_cases val range) as [H1 | [H1 | [H1 | H1]]];
    destruct (clip_cases val' range) as [H2 | [H2 | [H2 | H2]]];
    lra.
Qed.

(** X7.  [clip] is monotone and idempotent, never returns less than
    [range[0]], returns [val] itself when it lies in the range and
    [range[0]] when the range is empty ([range[1] < range[0]]). *)
Theorem clip_properties (val val' lo hi : R) :
  (val <= val' -> clip val [lo; hi] <= clip val' [lo; hi]) /\
  clip (clip val [lo; hi]) [lo; hi] = clip val [lo; hi] /\
  lo <= clip val [lo; hi] /\
  (lo <= val <= hi -> clip val [lo; hi] = val) /\
  (val <= lo -> clip val [lo; hi] = lo) /\
  (lo <= hi <= val -> clip val [lo; hi] = hi) /\
  (hi < lo -> clip val [lo; hi] = lo).
Proof.
  split; [apply clip_monotone |]. split; [apply clip_idempotent |].
  pose proof (clip_cases val [lo; hi]) as Hc. cbn [nth] in Hc.
  repeat split; intros; destruct Hc as [H1 | [H1 | [H1 | H1]]]; lra.
Qed.

Lemma ctxTrans_ctor_clamped (snr : SNR R) (ctx : Z) :
  ctxTrans_ctor (clamped_SNR snr) ctx = ctxTrans_ctor snr ctx.
Proof.
  unfold ctxTrans_ctor, clamped_SNR. now rewrite clip_idempotent.
Qed.

Lemma ctxTrans_ctor_channel (snr snr' : SNR R) (ctx : Z) :
  snr (Z.land ctx 3) = snr' (Z.land ctx 3) ->
  ctxTrans_ctor snr ctx = ctxTrans_ctor snr' ctx.
Proof. unfold ctxTrans_ctor. now intros ->. Qed.

(** X8.  The SNR saturates: the transition table of the model built from
    an SNR is the table of the model built from that SNR with each channel
    clamped to its range, so an SNR above (below) the range of a base acts
    as the upper (lower) bound. *)
Theorem ctxTrans_saturates (snr : SNR R) :
  ctxTrans_ (S_P1C1v2_Model_new (clamped_SNR snr)) = ctxTrans_ (S_P1C1v2_Model_new snr).
Proof.
  cbn [S_P1C1v2_Model_new ctxTrans_]. apply map_ext.
  intros ctx. apply ctxTrans_ctor_clamped.
Qed.

(** X10.  The transition probabilities that [Populate] stores at position
    [i] are computed from the SNR channel of the base at [i + 1]: two models
    whose SNRs agree on that channel give position [i] the same four
    probabilities. *)
Theorem Populate_next_base_channel (snr snr' : SNR R) (tpl : string)
        (v v' : list (TemplatePosition R)) (i : nat) :
  Populate (S_P1C1v2_Model_new snr) tpl = Ok v ->
  Populate (S_P1C1v2_Model_new snr') tpl = Ok v' ->
  (S i < String.length tpl)%nat ->
  (let next := TranslationTable (nth (S i) (list_ascii_of_string tpl) Ascii.zero) in
   snr next = snr' next) ->
  exists p p', nth_error v i = Some p /\ nth_error v' i = Some p' /\
               transitions p = transitions p'.
Proof.
  intros E E' Hi Hsnr.
  destruct (Populate_Ok_valid _ tpl v E) as [Hvalid ->].
  destruct (Populate_Ok_valid _ tpl v' E') as [_ ->].
  rewrite string_length_list in Hi.
  exists (position_at (S_P1C1v2_Model_new snr) (list_ascii_of_string tpl) i),
         (position_at (S_P1C1v2_Model_new snr') (list_ascii_of_string tpl) i).
  split; [apply populated_nth_error; lia |].
  split; [apply populated_nth_error; lia |].
  unfold position_at.
  replace (S i <? List.length (list_ascii_of_string tpl))%nat with true
    by (symmetry; apply Nat.ltb_lt; exact Hi).
  rewrite Forall_forall in Hvalid.
  assert (Ha : In (nth i (list_ascii_of_string tpl) Ascii.zero) ACGT)
    by (apply Hvalid, nth_In; lia).
  assert (Hb : In (nth (S i) (list_ascii_of_string tpl) Ascii.zero) ACGT)
    by (apply Hvalid, nth_In; lia).
  apply TranslationTable_ACGT in Ha, Hb.
  pose proof (TranslationTable_range (nth i (list_ascii_of_string tpl) Ascii.zero)) as Ra.
  pose proof (TranslationTable_range (nth (S i) (list_ascii_of_string tpl) Ascii.zero)) as Rb.
  destruct (context_range (TranslationTable (nth i (list_ascii_of_string tpl) Ascii.zero))
                          (TranslationTable (nth (S i) (list_ascii_of_string tpl) Ascii.zero)))
    as (Hctx & Hland & _); [lia | lia |].
  unfold transitions. cbn [Match Branch Stick Deletion].
  rewrite !(ctxTrans_new_row _ _ Hctx).
  rewrite (ctxTrans_ctor_channel snr snr'); [reflexivity |].
  rewrite Hland. exact Hsnr.
Qed.

Lemma Populate_next_base_channel_witness :
  exists p p',
    nth_error (populated model_snr8 (list_ascii_of_string "ACGT")) 0 = Some p /\
    nth_error (populated (S_P1C1v2_Model_new (fun bp => if (bp =? 1)%Z then 8 else 5))
                         (list_ascii_of_string "ACGT")) 0 = Some p' /\
    transitions p = transitions p'.
Proof.
  refine (Populate_next_base_channel (fun _ => 8)
            (fun bp => if (bp =? 1)%Z then 8 else 5) "ACGT" _ _ 0 _ _ _ _).
  - reflexivity.
  - reflexivity.
  - simpl. lia.
  - reflexivity.
Defined.

Local Close Scope R_scope.

(** ** Emissions *)

Local Open Scope R_scope.

Ltac table_rows :=
  repeat match goal with
         | |- Forall _ (_ :: _) => apply Forall_cons
         | |- Forall _ [] => apply Forall_nil
         | |- _ /\ _ => split
         end.

(** Every row of [emissionPmf] has [nOutcomes] entries, each strictly
    between 0 and 1, and sums to a value between 0.995 and 1. *)
Lemma emissionPmf_rows :
  List.length emissionPmf = 3%nat /\
  Forall (fun pmf =>
            List.length pmf = nContexts /\
            Forall (fun r => List.length r = nOutcomes /\
                             Forall (fun p => 0 < p < 1) r /\
                             0.995 <= row_sum r <= 1) pmf) emissionPmf.
Proof.
  split; [reflexivity |].
  unfold emissionPmf. table_rows; try reflexivity;
    try (unfold row_sum; cbn [fold_right]; lra).
Qed.

Lemma emissionPmf_entry (move row i : nat) :
  (move < 3)%nat -> (row < nContexts)%nat -> (i < nOutcomes)%nat ->
  0 < nth i (nth row (nth move emissionPmf []) []) 0 < 1.
Proof.
  intros Hm Hr Hi. destruct emissionPmf_rows as [Hlen Hrows].
  rewrite Forall_forall in Hrows.
  destruct (Hrows (nth move emissionPmf [])) as [Hl Hpmf];
    [apply nth_In; lia |].
  rewrite Forall_forall in Hpmf.
  destruct (Hpmf (nth row (nth move emissionPmf []) [])) as (Hl' & Hps & _);
    [apply nth_In; lia |].
  rewrite Forall_forall in Hps. apply Hps, nth_In. lia.
Qed.

(** X11.  The emission tables are sub-distributions: for each of the three
    emitting moves and each of the 16 contexts the 12 outcome
    probabilities are strictly between 0 and 1 and sum to a value in
    [0.995, 1]. *)
Theorem emissionPmf_subdistribution (move row : nat) :
  (move < 3)%nat -> (row < nContexts)%nat ->
  let r := nth row (nth move emissionPmf []) [] in
  List.length r = nOutcomes /\
  Forall (fun p => 0 < p < 1) r /\
  0.995 <= row_sum r <= 1.
Proof.
  intros Hm Hr. destruct emissionPmf_rows as [Hlen Hrows].
  rewrite Forall_forall in Hrows.
  destruct (Hrows (nth move emissionPmf [])) as [Hl Hpmf];
    [apply nth_In; lia |].
  rewrite Forall_forall in Hpmf. apply Hpmf, nth_In. lia.
Qed.

Lemma emissionPmf_subdistribution_witness :
  ((1 < 3)%nat /\ (5 < nContexts)%nat) /\
  0.995 <= row_sum (nth 5 (nth 1 emissionPmf []) []) <= 1.
Proof.
  assert (Hm : (1 < 3)%nat) by lia.
  assert (Hr : (5 < nContexts)%nat) by (unfold nContexts; lia).
  split; [split; assumption |].
  exact (proj2 (proj2 (emissionPmf_subdistribution 1 5 Hm Hr))).
Defined.

(** X12.  For an emitting move, an outcome 0..11 and bases 0..3,
    [EmissionPr] is the table entry times the counter-weight 20, a value
    strictly between 0 and 20. *)
Theorem EmissionPr_range (move : MoveType) (emission prev curr : Z) :
  move <> DELETION_MOVE ->
  (0 <= emission < 12)%Z -> (0 <= prev <= 3)%Z -> (0 <= curr <= 3)%Z ->
  0 < EmissionPr move emission prev curr < 20.
Proof.
  intros Hmove Hem Hp Hc. unfold EmissionPr.
  destruct (context_range prev curr Hp Hc) as (Hctx & _).
  assert (Hentry := emissionPmf_entry (MoveType_code move)
                      (Z.to_nat (context prev curr)) (Z.to_nat emission)).
  destruct Hentry as [H0 H1].
  - destruct move; cbn; try lia. contradiction.
  - unfold nContexts. lia.
  - unfold nOutcomes. lia.
  - unfold kCounterWeight. cbn [dlit R_Double]. lra.
Qed.

Lemma EmissionPr_range_witness :
  (MATCH <> DELETION_MOVE /\ (0 <= 0 < 12)%Z /\ (0 <= 0 <= 3)%Z /\ (0 <= 1 <= 3)%Z) /\
  0 < EmissionPr MATCH 0 0 1 < 20.
Proof.
  assert (H1 : MATCH <> DELETION_MOVE) by discriminate.
  assert (H2 : (0 <= 0 < 12)%Z) by lia.
  assert (H3 : (0 <= 0 <= 3)%Z) by lia.
  assert (H4 : (0 <= 1 <= 3)%Z) by lia.
  split; [repeat split; assumption || lia |].
  exact (EmissionPr_range MATCH 0 0 1 H1 H2 H3 H4).
Defined.

Local Close Scope R_scope.

(** ** Expected emission log-likelihoods *)

Local Open Scope R_scope.

Lemma fold_left_decreasing (f : R -> nat -> R) (idxs : list nat) (a : R) :
  (forall acc i, In i idxs -> f acc i < acc) ->
  idxs <> [] -> fold_left f idxs a < a.
Proof.
  revert a. induction idxs as [| i idxs IH]; intros a Hstep Hne; [congruence |].
  cbn [fold_left]. destruct idxs as [| j idxs'].
  - cbn [fold_left]. apply Hstep. now left.
  - apply Rlt_trans with (f a i).
    + apply IH; [intros acc k Hk; apply Hstep; now right | discriminate].
    + apply Hstep. now left.
Qed.

Lemma fold_left_increasing (f : R -> nat -> R) (idxs : list nat) (a : R) :
  (forall acc i, In i idxs -> acc < f acc i) ->
  idxs <> [] -> a < fold_left f idxs a.
Proof.
  revert a. induction idxs as [| i idxs IH]; intros a Hstep Hne; [congruence |].
  cbn [fold_left]. destruct idxs as [| j idxs'].
  - cbn [fold_left]. apply Hstep. now left.
  - apply Rlt_trans with (f a i).
    + apply Hstep. now left.
    + apply IH; [intros acc k Hk; apply Hstep; now right | discriminate].
Qed.

Lemma fold_left_constant (f : R -> nat -> R) (idxs : list nat) (a : R) :
  (forall acc i, f acc i = acc) -> fold_left f idxs a = a.
Proof.
  intros Hstep. revert a. induction idxs as [| i idxs IH]; intros a;
    cbn [fold_left]; [reflexivity |]. now rewrite Hstep.
Qed.

Lemma ln_neg (p : R) : 0 < p < 1 -> ln p < 0.
Proof. intros Hp. rewrite <- ln_1. apply ln_increasing; lra. Qed.

(** X14.  For an emitting move and a context, the first moment that
    [CalculateExpectedLLForEmission] returns (the expected log-probability
    of an emission) is negative, the second moment is positive, and any
    other moment code gives 0. *)
Theorem CalculateExpectedLLForEmission_sign (move row : nat) :
  (move < 3)%nat -> (row < nContexts)%nat ->
  CalculateExpectedLLForEmission move row (MomentType_code FIRST) < 0 /\
  0 < CalculateExpectedLLForEmission move row (MomentType_code SECOND) /\
  (forall moment, (2 <= moment)%nat ->
                  CalculateExpectedLLForEmission move row moment = 0).
Proof.
  intros Hm Hr. unfold CalculateExpectedLLForEmission.
  assert (Hentry : forall i, In i (seq 0 nOutcomes) ->
                     0 < nth i (nth row (nth move emissionPmf []) []) 0 < 1).
  { intros i Hi. apply in_seq in Hi. apply emissionPmf_entry; lia. }
  split; [| split].
  - apply fold_left_decreasing; [| discriminate].
    intros acc i Hi. cbn [MomentType_code Nat.eqb].
    pose proof (Hentry i Hi) as Hp. pose proof (ln_neg _ Hp) as Hln.
    assert (nth i (nth row (nth move emissionPmf []) []) 0
            * ln (nth i (nth row (nth move emissionPmf []) []) 0) < 0); [| lra].
    apply Ropp_lt_cancel. rewrite Ropp_0, Ropp_mult_distr_r.
    apply Rmult_lt_0_compat; lra.
  - apply fold_left_increasing; [| discriminate].
    intros acc i Hi. cbn [MomentType_code Nat.eqb].
    pose proof (Hentry i Hi) as Hp. pose proof (ln_neg _ Hp) as Hln.
    assert (0 < nth i (nth row (nth move emissionPmf []) []) 0
                * (ln (nth i (nth row (nth move emissionPmf []) []) 0)
                   * ln (nth i (nth row (nth move emissionPmf []) []) 0))); [| lra].
    apply Rmult_lt_0_compat; [lra |].
    replace (ln (nth i (nth row (nth move emissionPmf []) []) 0)
             * ln (nth i (nth row (nth move emissionPmf []) []) 0))
      with ((- ln (nth i (nth row (nth move emissionPmf []) []) 0))
            * (- ln (nth i (nth row (nth move emissionPmf []) []) 0))) by ring.
    apply Rmult_lt_0_compat; lra.
  - intros moment Hmoment. apply fold_left_constant. intros acc i.
    cbn [MomentType_code].
    destruct moment as [| [| moment]]; [lia | lia | reflexivity].
Qed.

Lemma CalculateExpectedLLForEmission_sign_witness :
  ((0 < 3)%nat /\ (0 < nContexts)%nat) /\
  CalculateExpectedLLForEmission 0 0 (MomentType_code FIRST) < 0.
Proof.
  assert (Hm : (0 < 3)%nat) by lia.
  assert (Hr : (0 < nContexts)%nat) by (unfold nContexts; lia).
  split; [split; assumption |].
  exact (proj1 (CalculateExpectedLLForEmission_sign 0 0 Hm Hr)).
Defined.

Local Close Scope R_scope.

(** X15.  The cache is coherent and does not depend on the SNR: for an
    emitting move and bases 0..3, [ExpectedLLForEmission] on a model built by
    the constructor returns what [CalculateExpectedLLForEmission] computes
    for that move, the context [(prev << 2) | curr] and that moment. *)
Theorem ExpectedLLForEmission_cached (snr : SNR R) (move : MoveType)
        (prev curr : Z) (moment : MomentType) :
  move <> DELETION_MOVE -> 0 <= prev <= 3 -> 0 <= curr <= 3 ->
  ExpectedLLForEmission (S_P1C1v2_Model_new snr) move prev curr moment
  = CalculateExpectedLLForEmission (MoveType_code move)
      (Z.to_nat (context prev curr)) (MomentType_code moment).
Proof.
  intros Hmove Hp Hc.
  assert (Ep : prev = 0 \/ prev = 1 \/ prev = 2 \/ prev = 3) by lia.
  assert (Ec : curr = 0 \/ curr = 1 \/ curr = 2 \/ curr = 3) by lia.
  destruct move; try contradiction;
    destruct moment;
    destruct Ep as [-> | [-> | [-> | ->]]]; destruct Ec as [-> | [-> | [-> | ->]]];
    reflexivity.
Qed.

Lemma ExpectedLLForEmission_cached_witness :
  (BRANCH <> DELETION_MOVE /\ 0 <= 2 <= 3 /\ 0 <= 3 <= 3) /\
  ExpectedLLForEmission model_snr8 BRANCH 2 3 SECOND
  = CalculateExpectedLLForEmission 1 11 1.
Proof.
  assert (H1 : BRANCH <> DELETION_MOVE) by discriminate.
  assert (H2 : 0 <= 2 <= 3) by lia.
  assert (H3 : 0 <= 3 <= 3) by lia.
  split; [repeat split; assumption || lia |].
  exact (ExpectedLLForEmission_cached (fun _ => 8%R) BRANCH 2 3 SECOND H1 H2 H3).
Defined.

(** ** The other strategies of [LL(mut)] *)

Section LLmutBranches.
Context {D : Type} `{Double D}.
Variable P : Primitives D.

Ltac run_LL_mut :=
  cbv beta iota zeta delta [LL_mut bind with_tpl get call_ExtendAlpha
    call_ExtendBeta call_LinkAlphaBeta lift set_extendBuffer ret];
  cbn [beta_ recursor_ alpha_ extendBuffer_].

(** X16.  When the mutation starts at column 3 or later and
    [mut.end + 3 > beta.cols], [LL(mut)] extends alpha to the end of the
    virtual template: [ExtendAlpha] from column [start - 1] over
    [Length() - (start - 1) + 1] columns, no link to beta, and the score is
    [log buffer(N, extendLength - 1)] plus the alpha scales up to
    [start - 1], the scales of the buffer and the undone counter-weights.
    (For a start column that the source's [assert] admits.) *)
Theorem LL_mut_at_end (e : EvaluatorImpl D) (mut : Mutation) :
  3 <= Start mut -> 0 <= End_ mut ->
  Columns (beta_ e) < End_ mut + 3 -> End_ mut + 3 < 2 ^ 64 ->
  let virt := on_tpl (Mutate mut) (recursor_ e) in
  Start mut - 1 < Length (tpl_ virt) + 1 -> Length (tpl_ virt) < 2 ^ 63 ->
  let extendStartCol := Start mut - 1 in
  let extendLength := Length (tpl_ virt) - extendStartCol + 1 in
  LL_mut P mut e =
  match ExtendAlpha P virt (alpha_ e) extendStartCol (extendBuffer_ e) extendLength with
  | Throw x =>
      (Throw x, {| recursor_ := virt; alpha_ := alpha_ e; beta_ := beta_ e;
                   extendBuffer_ := extendBuffer_ e |})
  | Ok ext =>
      (Ok (dadd (dadd (dadd (dlog (Get ext (read_Length e) (extendLength - 1)))
                            (GetLogProdScales (alpha_ e) 0 extendStartCol))
                      (GetLogProdScales ext 0 extendLength))
                (UndoCounterWeights (read_Length e))),
       {| recursor_ := on_tpl Reset virt; alpha_ := alpha_ e; beta_ := beta_ e;
          extendBuffer_ := ext |})
  end.
Proof.
  intros Hstart Hend0 Hend Hwrap virt Hassert Hlen extendStartCol extendLength.
  assert (EatBegin : (Start mut <? 3) = false) by (apply Z.ltb_ge; lia).
  assert (EatEnd : (size_t (End_ mut + 3) >? Columns (beta_ e)) = true).
  { rewrite size_t_small by lia. rewrite Z.gtb_ltb. apply Z.ltb_lt. lia. }
  run_LL_mut. rewrite EatBegin, EatEnd. cbn [negb andb beta_ recursor_ alpha_ extendBuffer_].
  fold virt.
  rewrite (size_t_small (Start mut - 1)) by lia. fold extendStartCol.
  rewrite (size_t_small (Length (tpl_ virt) - extendStartCol + 1))
    by (subst extendStartCol; lia).
  fold extendLength.
  rewrite (size_t_small (extendLength - 1)) by (subst extendLength extendStartCol; lia).
  destruct (ExtendAlpha P virt (alpha_ e) extendStartCol (extendBuffer_ e) extendLength)
    as [ext | x]; reflexivity.
Qed.

(** X17.  When the mutation starts before column 3 and
    [mut.end + 3 <= beta.cols], [LL(mut)] extends beta backwards:
    [ExtendBeta] from column [end] with the mutation's length difference, no
    use of alpha, and the score is [log buffer(0, 0)] plus the beta scales
    from [end + 1] on, the scales of the first [1 + end + lengthDiff]
    buffer columns and the undone counter-weights. *)
Theorem LL_mut_at_begin (e : EvaluatorImpl D) (mut : Mutation) :
  0 <= Start mut < 3 -> 0 <= End_ mut ->
  End_ mut + 3 <= Columns (beta_ e) -> Columns (beta_ e) < 2 ^ 64 ->
  let virt := on_tpl (Mutate mut) (recursor_ e) in
  let extendLength := 1 + End_ mut + LengthDiff mut in
  LL_mut P mut e =
  match ExtendBeta P virt (beta_ e) (End_ mut) (extendBuffer_ e) (LengthDiff mut) with
  | Throw x =>
      (Throw x, {| recursor_ := virt; alpha_ := alpha_ e; beta_ := beta_ e;
                   extendBuffer_ := extendBuffer_ e |})
  | Ok ext =>
      (Ok (dadd (dadd (dadd (dlog (Get ext 0 0))
                            (GetLogProdScales (beta_ e) (End_ mut + 1)
                                              (Columns (beta_ e))))
                      (GetLogProdScales ext 0 extendLength))
                (UndoCounterWeights (read_Length e))),
       {| recursor_ := on_tpl Reset virt; alpha_ := alpha_ e; beta_ := beta_ e;
          extendBuffer_ := ext |})
  end.
Proof.
  intros Hstart Hend0 Hend Hcols virt extendLength.
  pose proof (LengthDiff_range mut) as Hld.
  assert (EatBegin : (Start mut <? 3) = true) by (apply Z.ltb_lt; lia).
  assert (EatEnd : (size_t (End_ mut + 3) >? Columns (beta_ e)) = false).
  { rewrite size_t_small by lia. rewrite Z.gtb_ltb. apply Z.ltb_ge. lia. }
  run_LL_mut. rewrite EatBegin, EatEnd. cbn [negb andb beta_ recursor_ alpha_ extendBuffer_].
  fold virt.
  rewrite (size_t_small (1 + End_ mut + LengthDiff mut)) by lia. fold extendLength.
  rewrite (size_t_small (End_ mut + 1)) by lia.
  destruct (ExtendBeta P virt (beta_ e) (End_ mut) (extendBuffer_ e) (LengthDiff mut))
    as [ext | x]; reflexivity.
Qed.

(** X18.  When the mutation starts before column 3 and
    [mut.end + 3 > beta.cols], [LL(mut)] fills a fresh alpha matrix for the
    virtual template with [FillAlpha] and no guide, and scores from its last
    cell; neither alpha, beta nor the extend buffer is written, so a call
    that returns leaves the evaluator exactly as it was. *)
Theorem LL_mut_fallback (e : EvaluatorImpl D) (mut : Mutation) :
  0 <= Start mut < 3 -> 0 <= End_ mut ->
  Columns (beta_ e) < End_ mut + 3 -> End_ mut + 3 < 2 ^ 64 ->
  let virt := on_tpl (Mutate mut) (recursor_ e) in
  LL_mut P mut e =
  match FillAlpha P virt Null
                  (NewScaledMatrix (read_Length e + 1) (Length (tpl_ virt) + 1)) with
  | Throw x =>
      (Throw x, {| recursor_ := virt; alpha_ := alpha_ e; beta_ := beta_ e;
                   extendBuffer_ := extendBuffer_ e |})
  | Ok alphaP =>
      (Ok (dadd (dadd (dlog (Get alphaP (read_Length e) (Length (tpl_ virt))))
                      (GetLogProdScales_all alphaP))
                (UndoCounterWeights (read_Length e))),
       {| recursor_ := on_tpl Reset virt; alpha_ := alpha_ e; beta_ := beta_ e;
          extendBuffer_ := extendBuffer_ e |})
  end.
Proof.
  intros Hstart Hend0 Hend Hwrap virt.
  assert (EatBegin : (Start mut <? 3) = true) by (apply Z.ltb_lt; lia).
  assert (EatEnd : (size_t (End_ mut + 3) >? Columns (beta_ e)) = true).
  { rewrite size_t_small by lia. rewrite Z.gtb_ltb. apply Z.ltb_lt. lia. }
  run_LL_mut. rewrite EatBegin, EatEnd. cbn [negb andb beta_ recursor_ alpha_ extendBuffer_].
  fold virt.
  destruct (FillAlpha P virt Null _) as [alphaP | x]; reflexivity.
Qed.

End LLmutBranches.


Lemma LL_mut_at_end_witness :
  exists score,
    fst (LL_mut (idle_primitives R) mut_DELETION_7 evaluator_ACGTACGT) = Ok score.
Proof.
  assert (H1 : 3 <= Start mut_DELETION_7) by (simpl; lia).
  assert (H2 : 0 <= End_ mut_DELETION_7) by (simpl; lia).
  assert (H3 : Columns (beta_ evaluator_ACGTACGT) < End_ mut_DELETION_7 + 3)
    by (simpl; lia).
  assert (H4 : End_ mut_DELETION_7 + 3 < 2 ^ 64) by (simpl; lia).
  assert (HL : Length (tpl_ (on_tpl (Mutate mut_DELETION_7)
                                    (recursor_ evaluator_ACGTACGT))) = 7)
    by reflexivity.
  assert (H5 : Start mut_DELETION_7 - 1
               < Length (tpl_ (on_tpl (Mutate mut_DELETION_7)
                                      (recursor_ evaluator_ACGTACGT))) + 1)
    by (rewrite HL; simpl; lia).
  assert (H6 : Length (tpl_ (on_tpl (Mutate mut_DELETION_7)
                                    (recursor_ evaluator_ACGTACGT))) < 2 ^ 63)
    by (rewrite HL; lia).
  rewrite (LL_mut_at_end (idle_primitives R) evaluator_ACGTACGT mut_DELETION_7
                         H1 H2 H3 H4 H5 H6).
  eexists. reflexivity.
Defined.

Lemma LL_mut_at_begin_witness :
  exists score,
    fst (LL_mut (idle_primitives R) mut_SUBSTITUTION_0 evaluator_ACGTACGT) = Ok score.
Proof.
  assert (H1 : 0 <= Start mut_SUBSTITUTION_0 < 3) by (simpl; lia).
  assert (H2 : 0 <= End_ mut_SUBSTITUTION_0) by (simpl; lia).
  assert (H3 : End_ mut_SUBSTITUTION_0 + 3 <= Columns (beta_ evaluator_ACGTACGT))
    by (simpl; lia).
  assert (H4 : Columns (beta_ evaluator_ACGTACGT) < 2 ^ 64) by (simpl; lia).
  rewrite (LL_mut_at_begin (idle_primitives R) evaluator_ACGTACGT mut_SUBSTITUTION_0
                           H1 H2 H3 H4).
  eexists. reflexivity.
Defined.

Lemma LL_mut_fallback_witness :
  snd (LL_mut (idle_primitives R) mut_INSERTION_1 evaluator_AC) = evaluator_AC.
Proof.
  assert (H1 : 0 <= Start mut_INSERTION_1 < 3) by (simpl; lia).
  assert (H2 : 0 <= End_ mut_INSERTION_1) by (simpl; lia).
  assert (H3 : Columns (beta_ evaluator_AC) < End_ mut_INSERTION_1 + 3) by (simpl; lia).
  assert (H4 : End_ mut_INSERTION_1 + 3 < 2 ^ 64) by (simpl; lia).
  rewrite (LL_mut_fallback (idle_primitives R) evaluator_AC mut_INSERTION_1
                           H1 H2 H3 H4).
  reflexivity.
Defined.

(** ** Construction and recalculation *)

Section Construction.
Context {D : Type} `{Double D}.
Variable P : Primitives D.

Lemma EvaluatorImpl_new_Ok (tpl : Template D) (mr : MappedRead) (scoreDiff : D)
      (e : EvaluatorImpl D) :
  EvaluatorImpl_new P tpl mr scoreDiff = Ok e ->
  exists emissions alpha beta,
    EncodeRead mr = Ok emissions /\
    let recursor := {| tpl_ := tpl; read_ := mr; emissions_ := emissions;
                       scoreDiff_ := scoreDiff |} in
    let rows := Z.of_nat (ReadLength mr) + 1 in
    FillAlphaBeta P recursor (NewScaledMatrix rows (Length tpl + 1))
                  (NewScaledMatrix rows (Length tpl + 1)) = Ok (alpha, beta) /\
    e = {| recursor_ := recursor; alpha_ := alpha; beta_ := beta;
           extendBuffer_ := NewScaledMatrix rows EXTEND_BUFFER_COLUMNS |} /\
    disfinite (LL e) = true.
Proof.
  unfold EvaluatorImpl_new, Recursor_new. intros E.
  destruct (EncodeRead mr) as [emissions | x]; [| discriminate E].
  cbn [tpl_] in E.
  destruct (FillAlphaBeta P _ _ _) as [[alpha beta] | x] eqn:Efill; [| discriminate E].
  destruct (disfinite (LL _)) eqn:Efin; cbn [negb] in E; [| discriminate E].
  injection E as <-. exists emissions, alpha, beta. auto.
Qed.

(** X19.  The constructor hands on the exceptions of its callees: an
    exception of [EncodeRead] is thrown before anything is filled, whatever
    the recursor's operations do, and an exception of [FillAlphaBeta] is
    thrown as it is.  An evaluator that is returned holds the template, the
    read, the read's encoding, the [scoreDiff], and an extend buffer of
    [N + 1] rows and 8 columns. *)
Theorem EvaluatorImpl_new_parts (tpl : Template D) (mr : MappedRead) (scoreDiff : D) :
  (forall x, EncodeRead mr = Throw x ->
             EvaluatorImpl_new P tpl mr scoreDiff = Throw x) /\
  (forall emissions x,
     EncodeRead mr = Ok emissions ->
     FillAlphaBeta P {| tpl_ := tpl; read_ := mr; emissions_ := emissions;
                        scoreDiff_ := scoreDiff |}
                   (NewScaledMatrix (Z.of_nat (ReadLength mr) + 1) (Length tpl + 1))
                   (NewScaledMatrix (Z.of_nat (ReadLength mr) + 1) (Length tpl + 1))
     = Throw x ->
     EvaluatorImpl_new P tpl mr scoreDiff = Throw x) /\
  (forall e, EvaluatorImpl_new P tpl mr scoreDiff = Ok e ->
     tpl_ (recursor_ e) = tpl /\ read_ (recursor_ e) = mr /\
     EncodeRead mr = Ok (emissions_ (recursor_ e)) /\
     scoreDiff_ (recursor_ e) = scoreDiff /\
     extendBuffer_ e = NewScaledMatrix (Z.of_nat (ReadLength mr) + 1)
                                       EXTEND_BUFFER_COLUMNS).
Proof.
  split; [| split].
  - intros x E. unfold EvaluatorImpl_new, Recursor_new. now rewrite E.
  - intros emissions x E Efill. unfold EvaluatorImpl_new, Recursor_new.
    rewrite E. cbn [tpl_]. now rewrite Efill.
  - intros e E.
    destruct (EvaluatorImpl_new_Ok tpl mr scoreDiff e E)
      as (emissions & alpha & beta & Eem & _ & -> & _).
    cbn [recursor_ tpl_ read_ emissions_ scoreDiff_ extendBuffer_]. auto.
Qed.

(** X20.  [Recalculate] keeps nothing of the old matrices: run on any
    evaluator that holds the recursor of an evaluator the constructor
    returned, whatever its three matrices are, it returns and leaves
    exactly the constructed evaluator. *)
Theorem Recalculate_refills (tpl : Template D) (mr : MappedRead) (scoreDiff : D)
        (e e' : EvaluatorImpl D) :
  EvaluatorImpl_new P tpl mr scoreDiff = Ok e ->
  recursor_ e' = recursor_ e ->
  Recalculate P e' = (Ok tt, e).
Proof.
  intros E Erec.
  destruct (EvaluatorImpl_new_Ok tpl mr scoreDiff e E)
    as (emissions & alpha & beta & Eem & Efill & -> & _).
  destruct e' as [recursor' alpha' beta' extendBuffer'].
  cbn [recursor_] in Erec. subst recursor'.
  cbv beta iota zeta delta [Recalculate bind get set_matrices lift ScaledMatrix_Reset
                            read_Length].
  cbn [recursor_ alpha_ beta_ extendBuffer_ tpl_ read_].
  cbv zeta in Efill. rewrite Efill. reflexivity.
Qed.

End Construction.

Section CommitFacts.
Context {D : Type} `{Double D}.
Variable P : Primitives D.
Variable T : TemplateCommit D.

(** What [ApplyMutation] and [ApplyMutations] do once the template has
    committed to [tpl]. *)
Lemma commit_then_Recalculate (e : EvaluatorImpl D) (tpl : Template D) :
  let recursor := on_tpl (fun _ => tpl) (recursor_ e) in
  let I := read_Length e + 1 in
  let J := Length tpl + 1 in
  (with_tpl (fun _ => tpl) ;; Recalculate P)%eval e
  = match FillAlphaBeta P recursor (NewScaledMatrix I J) (NewScaledMatrix I J) with
    | Ok (alpha, beta) =>
        (Ok tt, {| recursor_ := recursor; alpha_ := alpha; beta_ := beta;
                   extendBuffer_ := NewScaledMatrix I EXTEND_BUFFER_COLUMNS |})
    | Throw x =>
        (Throw x, {| recursor_ := recursor; alpha_ := NewScaledMatrix I J;
                     beta_ := NewScaledMatrix I J;
                     extendBuffer_ := NewScaledMatrix I EXTEND_BUFFER_COLUMNS |})
    end.
Proof.
  intros recursor I J.
  cbv beta iota zeta delta [Recalculate bind get set_matrices lift ScaledMatrix_Reset
                            read_Length with_tpl].
  cbn [recursor_ alpha_ beta_ extendBuffer_ tpl_ read_ on_tpl].
  fold recursor. unfold read_Length in I. fold I. fold J.
  destruct (FillAlphaBeta P _ _ _) as [[alpha beta] | x]; reflexivity.
Qed.

(** X21.  Committing a mutation refills from scratch: when the template
    commits [mut] to [tpl'] and [ApplyMutation] returns, the evaluator it
    leaves is the one that the constructor builds for [tpl'], the same read
    and the same [scoreDiff], provided the [LL()] of that evaluator is
    finite; when it is not finite, [ApplyMutation] still returns while
    the constructor throws [AlphaBetaMismatch]. *)
Theorem ApplyMutation_refills (e e1 : EvaluatorImpl D) (mut : Mutation)
        (tpl' : Template D) :
  EncodeRead (read_ (recursor_ e)) = Ok (emissions_ (recursor_ e)) ->
  Template_ApplyMutation T mut (tpl_ (recursor_ e)) = Ok tpl' ->
  ApplyMutation P T mut e = (Ok tt, e1) ->
  EvaluatorImpl_new P tpl' (read_ (recursor_ e)) (scoreDiff_ (recursor_ e))
  = if disfinite (LL e1) then Ok e1 else Throw AlphaBetaMismatch.
Proof.
  intros Hem Hcommit Happly.
  unfold ApplyMutation in Happly.
  cbv beta iota zeta delta [bind get lift] in Happly. rewrite Hcommit in Happly.
  change ((with_tpl (fun _ => tpl') ;; Recalculate P)%eval e = (Ok tt, e1)) in Happly.
  rewrite commit_then_Recalculate in Happly.
  unfold EvaluatorImpl_new, Recursor_new. rewrite Hem. cbn [tpl_].
  unfold read_Length in Happly.
  unfold on_tpl in Happly.
  destruct (FillAlphaBeta P _ _ _) as [[alpha beta] | x]; [| discriminate Happly].
  injection Happly as <-.
  destruct (disfinite (LL _)); reflexivity.
Qed.

(** X22.  [ApplyMutation] and [ApplyMutations] throw only what the
    template's commit or [FillAlphaBeta] throws, and they return whenever
    both of those return: unlike the constructor they do not test [LL()]. *)
Theorem ApplyMutation_throws (e : EvaluatorImpl D) (mut : Mutation)
        (muts : list Mutation) :
  let refill tpl :=
    FillAlphaBeta P (on_tpl (fun _ => tpl) (recursor_ e))
      (NewScaledMatrix (read_Length e + 1) (Length tpl + 1))
      (NewScaledMatrix (read_Length e + 1) (Length tpl + 1)) in
  fst (ApplyMutation P T mut e)
  = match Template_ApplyMutation T mut (tpl_ (recursor_ e)) with
    | Throw x => Throw x
    | Ok tpl => match refill tpl with Throw x => Throw x | Ok _ => Ok tt end
    end /\
  fst (ApplyMutations P T muts e)
  = match Template_ApplyMutations T muts (tpl_ (recursor_ e)) with
    | Throw x => Throw x
    | Ok tpl => match refill tpl with Throw x => Throw x | Ok _ => Ok tt end
    end.
Proof.
  intros refill. split.
  - unfold ApplyMutation. cbv beta iota zeta delta [bind get lift].
    destruct (Template_ApplyMutation T mut (tpl_ (recursor_ e))) as [tpl | x];
      [| reflexivity].
    change (fst ((with_tpl (fun _ => tpl) ;; Recalculate P)%eval e)
            = match refill tpl with Throw x => Throw x | Ok _ => Ok tt end).
    rewrite commit_then_Recalculate. subst refill. cbv beta.
    destruct (FillAlphaBeta P _ _ _) as [[alpha beta] | x]; reflexivity.
  - unfold ApplyMutations. cbv beta iota zeta delta [bind get lift].
    destruct (Template_ApplyMutations T muts (tpl_ (recursor_ e))) as [tpl | x];
      [| reflexivity].
    change (fst ((with_tpl (fun _ => tpl) ;; Recalculate P)%eval e)
            = match refill tpl with Throw x => Throw x | Ok _ => Ok tt end).
    rewrite commit_then_Recalculate. subst refill. cbv beta.
    destruct (FillAlphaBeta P _ _ _) as [[alpha beta] | x]; reflexivity.
Qed.

End CommitFacts.

Lemma Recalculate_refills_witness :
  exists e,
    (@EvaluatorImpl_new _ ieee_log filling_primitives tpl_float read_ACGTACGT
                        scoreDiff_float = Ok e /\
     recursor_ evaluator_stale = recursor_ e) /\
    @Recalculate _ ieee_log filling_primitives evaluator_stale = (Ok tt, e) /\
    Columns (beta_ evaluator_stale) = 0 /\ Columns (beta_ e) = 9 /\
    Get (beta_ e) 0 0 = Get (all_ones (beta_ evaluator_stale)) 0 0.
Proof.
  eexists. split; [split; reflexivity |]. split.
  - apply (@Recalculate_refills _ ieee_log filling_primitives tpl_float read_ACGTACGT
                                scoreDiff_float);
      reflexivity.
  - repeat split.
Defined.

Lemma ApplyMutation_refills_witness :
  (EncodeRead (read_ (recursor_ evaluator_ACGTACGT))
   = Ok (emissions_ (recursor_ evaluator_ACGTACGT)) /\
   Template_ApplyMutation (idle_commit R) mut_SUBSTITUTION_4
                          (tpl_ (recursor_ evaluator_ACGTACGT)) = Ok tpl_ACGTACGT) /\
  EvaluatorImpl_new (idle_primitives R) tpl_ACGTACGT read_ACGTACGT 12.5%R
  = Ok (snd (ApplyMutation (idle_primitives R) (idle_commit R) mut_SUBSTITUTION_4
                           evaluator_ACGTACGT)).
Proof.
  assert (H1 : EncodeRead (read_ (recursor_ evaluator_ACGTACGT))
               = Ok (emissions_ (recursor_ evaluator_ACGTACGT))) by reflexivity.
  assert (H2 : Template_ApplyMutation (idle_commit R) mut_SUBSTITUTION_4
                 (tpl_ (recursor_ evaluator_ACGTACGT)) = Ok tpl_ACGTACGT) by reflexivity.
  assert (H3 : ApplyMutation (idle_primitives R) (idle_commit R) mut_SUBSTITUTION_4
                             evaluator_ACGTACGT
               = (Ok tt, snd (ApplyMutation (idle_primitives R) (idle_commit R)
                                            mut_SUBSTITUTION_4 evaluator_ACGTACGT)))
    by reflexivity.
  split; [split; assumption |].
  exact (ApplyMutation_refills (idle_primitives R) (idle_commit R) evaluator_ACGTACGT _
                               mut_SUBSTITUTION_4 tpl_ACGTACGT H1 H2 H3).
Defined.
